(** * A shallow embedding of the reactivity core of [src/index.js]

    The development follows the second part of the source file (the part
    that starts at the second [const bucket = new WeakMap()]): the proxy
    handler installed on [data], [track], [trigger], [cleanup], [effect],
    the array instrumentations, [computed], [watch], [proxyRefs] and
    [queueJob].

    JavaScript's global mutable state ([bucket], [activeEffect],
    [effectStack], [shouldTrack], [queue], [isFlushing], the raw objects
    themselves) is threaded explicitly through a record [State].  User
    supplied functions (effect bodies, getters, callbacks, schedulers) are
    trees of API calls ([Prog]); the interpreter [exec] runs them with fuel,
    because a triggered effect may trigger itself for ever. *)

From stdpp Require Import base gmap list strings pretty.

(** ** Values and property keys *)

(** Identity of a raw object (a Target).  The reactive proxy of a target
    is one-to-one with it, so a proxy is named by its target. *)
Abbreviation Loc := nat.
(** Identity of an effect wrapper [effectFn]. *)
Abbreviation EffId := nat.
(** Identity of the closure state of one [computed] / one [watch]. *)
Abbreviation CompId := nat.
Abbreviation WatchId := nat.

(** Property keys are strings or the one symbol of the file. *)
Inductive Key :=
| KStr (s : string)
| ITERATE_KEY.

Coercion KStr : string >-> Key.

Global Instance Key_eq_dec : EqDecision Key.
Proof. solve_decision. Defined.

Global Instance Key_countable : Countable Key.
Proof.
  refine (inj_countable'
            (λ k, match k with KStr s => Some s | ITERATE_KEY => None end)
            (λ o, match o with Some s => KStr s | None => ITERATE_KEY end) _).
  by intros [].
Defined.

(** JavaScript values.  Numbers are the integers plus NaN (fractions,
    infinities and the sign of zero play no part in the code).  [VObj l] is
    the raw object [l], [VProxy l] its reactive proxy, [VInstr m] the
    function stored under [m] in [arrayInstrumentations]. *)
Inductive Val :=
| VUndef
| VNull
| VBool (b : bool)
| VNum (z : Z)
| VNaN
| VStr (s : string)
| VObj (l : Loc)
| VProxy (l : Loc)
| VInstr (m : string).

Arguments VNum z%_Z.

Global Instance Val_eq_dec : EqDecision Val.
Proof. solve_decision. Defined.

(** [a === b] *)
Definition strict_eq (a b : Val) : bool :=
  match a, b with
  | VNaN, _ | _, VNaN => false
  | _, _ => bool_decide (a = b)
  end.

(** [a !== b] *)
Definition strict_neq (a b : Val) : bool := negb (strict_eq a b).

(** ToBoolean *)
Definition truthy (v : Val) : bool :=
  match v with
  | VUndef | VNull | VNaN => false
  | VBool b => b
  | VNum z => negb (z =? 0)%Z
  | VStr s => negb (bool_decide (s = ""%string))
  | VObj _ | VProxy _ | VInstr _ => true
  end.

Inductive Err :=
| TypeError
| ReferenceError
| RangeError
| UserError (v : Val).

(** ** Raw objects *)

(** A raw object: its own data properties, whether it is an array, whether
    it has been frozen.  Accessor properties and prototype chains are not
    modelled: a key that is not an own property reads as [undefined]. *)
Record Obj := mkObj {
  o_array : bool;
  o_frozen : bool;
  o_props : gmap Key Val
}.

Definition digit_of (a : Ascii.ascii) : option nat :=
  let n := Ascii.nat_of_ascii a in
  if bool_decide (48 ≤ n ≤ 57) then Some (n - 48) else None.

Fixpoint parse_digits (acc : nat) (s : string) : option nat :=
  match s with
  | EmptyString => Some acc
  | String a s' =>
      match digit_of a with
      | Some d => parse_digits (10 * acc + d) s'
      | None => None
      end
  end.

(** [Number(key)] for a string key: a non-empty string of decimal digits
    is that number, anything else counts as NaN ([None]).  Strings that
    ToNumber accepts in other notations (blank, signed, hexadecimal,
    exponent) are outside the model. *)
Definition Number_str (s : string) : option nat :=
  match s with
  | EmptyString => None
  | _ => parse_digits 0 s
  end.

(** A canonical array index: the decimal form of a natural number below
    2^32 - 1. *)
Definition index_of_key (k : Key) : option nat :=
  match k with
  | KStr s =>
      match Number_str s with
      | Some n =>
          if bool_decide (pretty n = s) && (Z.of_nat n <? 4294967295)%Z
          then Some n else None
      | None => None
      end
  | ITERATE_KEY => None
  end.

(** The length that writing [v] to [length] asks for, when ToNumber of [v]
    is a valid array length.  Objects (whose ToNumber goes through their
    string form) are counted as invalid. *)
Definition length_of_val (v : Val) : option nat :=
  match v with
  | VNum z => if bool_decide (0 ≤ z < 4294967296)%Z then Some (Z.to_nat z) else None
  | VNull => Some 0
  | VBool b => Some (if b then 1 else 0)
  | VStr s =>
      if bool_decide (s = ""%string) then Some 0
      else match Number_str s with
           | Some n => if (Z.of_nat n <? 4294967296)%Z then Some n else None
           | None => None
           end
  | _ => None
  end.

(** [target[key]] on a raw object: the own property, [undefined] when
    there is none.  For a key that the object does not have but inherits
    (the methods of [Object.prototype] and [Array.prototype]) the code
    reads the inherited value instead. *)
Definition obj_get (o : Obj) (k : Key) : Val := default VUndef (o_props o !! k).

(** [Object.prototype.hasOwnProperty.call(target, key)] *)
Definition hasOwn (o : Obj) (k : Key) : bool := bool_decide (is_Some (o_props o !! k)).

(** [target.length] of an array, as a natural number *)
Definition arr_length (o : Obj) : nat :=
  match obj_get o "length" with
  | VNum z => Z.to_nat z
  | _ => 0
  end.

Definition keep_below (n : nat) (k : Key) : bool :=
  match index_of_key k with
  | Some i => bool_decide (i < n)
  | None => true
  end.

Inductive SetRes :=
| SetDone (o : Obj)
| SetRefused
| SetThrows (e : Err).

(** The effect of [Reflect.set(target, key, v, receiver)] on the raw
    target when [receiver] is a proxy without [defineProperty] trap: an
    ordinary write, with the array rules for indices and [length].  A
    frozen target refuses the write. *)
Definition Reflect_set (o : Obj) (k : Key) (v : Val) : SetRes :=
  if o_frozen o then SetRefused
  else if o_array o then
    if bool_decide (k = KStr "length") then
      match length_of_val v with
      | Some n =>
          SetDone (mkObj true false
                     (<[KStr "length" := VNum (Z.of_nat n)]>
                        (filter (λ kv, keep_below n kv.1 = true) (o_props o))))
      | None => SetThrows RangeError
      end
    else
      match index_of_key k with
      | Some i =>
          let props := <[k := v]> (o_props o) in
          SetDone (mkObj true false
                     (if bool_decide (arr_length o ≤ i)
                      then <[KStr "length" := VNum (Z.of_nat (S i))]> props
                      else props))
      | None => SetDone (mkObj true false (<[k := v]> (o_props o)))
      end
  else SetDone (mkObj false false (<[k := v]> (o_props o))).

(** [Reflect.deleteProperty(target, key)]: [None] when refused.  The
    own properties of an object that is not frozen are taken to be
    configurable, as those that a literal or an assignment creates are;
    [length] of an array is not. *)
Definition Reflect_deleteProperty (o : Obj) (k : Key) : option Obj :=
  if o_frozen o then
    if hasOwn o k then None else Some o
  else if o_array o && bool_decide (k = KStr "length") then None
  else Some (mkObj (o_array o) false (delete k (o_props o))).

(** The keys of [arrayInstrumentations] *)
Definition arrayInstrumentations : list string :=
  ["includes"; "indexOf"; "lastIndexOf"; "push"; "pop"; "shift"; "unshift"; "splice"]%string.

Definition is_instrumented (k : Key) : option string :=
  match k with
  | KStr s => if bool_decide (s ∈ arrayInstrumentations) then Some s else None
  | ITERATE_KEY => None
  end.

(** ** User code *)

(** The kind of mutation passed to [trigger] *)
Inductive MutKind := SET | ADD | DELETE.

Global Instance MutKind_eq_dec : EqDecision MutKind.
Proof. solve_decision. Defined.

(** The two length-mutating array methods whose native algorithm is
    modelled; [shift], [unshift] and [splice] go through the same wrapper
    of [arrayInstrumentations]. *)
Inductive Mutator := Mpush | Mpop.

Definition mutator_name (m : Mutator) : string :=
  match m with Mpush => "push" | Mpop => "pop" end.

(** A user function is the tree of the calls it makes into the library;
    every continuation receives what the call returned.
    - [PGet l k], [PHas], [POwnKeys], [PSet], [PDelete]: [proxy[k]],
      [k in proxy], [Reflect.ownKeys(proxy)], [proxy[k] = v],
      [delete proxy[k]] on the reactive proxy of [l];
    - [PMutate l m args]: [proxy.m(...args)];
    - [PEffect fn lazy sch]: [effect(fn, {lazy, scheduler})];
    - [PCall e]: [effectFn()] on a handle returned by [effect];
    - [PComputed g], [PCompValue c]: [computed(g)] and [c.value];
    - [PWatch src cb extra]: [watch(src, cb, extra)] with a getter [src];
    - [PQueueJob e]: [queueJob(effectFn)];
    - [PRefsGet t k], [PRefsSet t k v]: read and write through
      [proxyRefs(t)].
    The code runs in sloppy mode: an assignment or a [delete] that a trap
    refuses is silent.  There is no [try]/[catch]: an exception ends the
    run of the user code, so that a result [Ok] stands for a run in which
    nothing was thrown. *)
Inductive Prog :=
| PRet (v : Val)
| PThrow (v : Val)
| PGet (l : Loc) (k : Key) (cont : Val → Prog)
| PHas (l : Loc) (k : Key) (cont : bool → Prog)
| POwnKeys (l : Loc) (cont : gset Key → Prog)
| PSet (l : Loc) (k : Key) (v : Val) (cont : Prog)
| PDelete (l : Loc) (k : Key) (cont : Prog)
| PMutate (l : Loc) (m : Mutator) (args : list Val) (cont : Val → Prog)
| PEffect (fn : Prog) (lazy : bool) (sch : option Sched) (cont : EffId → Prog)
| PCall (e : EffId) (cont : Val → Prog)
| PComputed (getter : Prog) (cont : CompId → Prog)
| PCompValue (c : CompId) (cont : Val → Prog)
| PWatch (source : Prog) (cb : Val → Val → Prog) (extra : list Val) (cont : Prog)
| PQueueJob (e : EffId) (cont : Prog)
| PRefsGet (target : Val) (k : Key) (cont : Val → Prog)
| PRefsSet (target : Val) (k : Key) (v : Val) (cont : Prog)
with Sched :=
| SUser (f : EffId → Prog)     (* a scheduler written by the user *)
| SComputed (c : CompId)       (* the scheduler closure of [computed] *)
| SWatch (w : WatchId)         (* [job] of [watch] *)
| SQueueJob.                   (* [scheduler: queueJob] *)

(** ** The global state *)

(** [effectFn] with its two properties [options] and [deps].  An entry of
    [deps] is a reference to a Set stored in [bucket]; a Set, once stored
    under (target, key), is never replaced, so the reference is kept as
    that pair. *)
Record EffectRec := mkEffect {
  e_fn : Prog;
  e_lazy : bool;
  e_sched : option Sched;
  e_deps : list (Loc * Key)
}.

(** The closure variables [value], [dirty], [effectFn] of one [computed] *)
Record CompRec := mkComp {
  c_value : Val;
  c_dirty : bool;
  c_effect : EffId
}.

(** The closure variables [oldValue], [newValue], [effectFn], [cb] of one
    [watch] *)
Record WatchRec := mkWatch {
  w_old : Val;
  w_new : Val;
  w_effect : EffId;
  w_cb : Val → Val → Prog
}.

(** What an observer of the run sees: the body of effect [e] starts,
    [trigger] hands [e] to its scheduler, the callback of watch [w] is
    called with (new, old). *)
Inductive Event :=
| ERun (e : EffId)
| ESched (e : EffId)
| ECb (w : WatchId) (newv oldv : Val).

Global Instance Event_eq_dec : EqDecision Event.
Proof. solve_decision. Defined.

Record State := mkState {
  heap : gmap Loc Obj;                          (* the raw objects *)
  bucket : gmap Loc (gmap Key (list EffId));    (* WeakMap -> Map -> Set, in insertion order *)
  effects : gmap EffId EffectRec;
  activeEffect : option EffId;
  effectStack : list EffId;
  shouldTrack : bool;
  comps : gmap CompId CompRec;
  watches : gmap WatchId WatchRec;
  queue : list EffId;                           (* the Set [queue], in insertion order *)
  queue_clear : option Val;                     (* own property [clear] written on [queue] *)
  isFlushing : bool;
  microtasks : nat;                             (* callbacks registered with [p.then], all the flush *)
  next_id : nat;
  trace : list Event
}.

Definition set_heap (x : gmap Loc Obj) (s : State) : State :=
  mkState x (bucket s) (effects s) (activeEffect s) (effectStack s) (shouldTrack s)
    (comps s) (watches s) (queue s) (queue_clear s) (isFlushing s) (microtasks s)
    (next_id s) (trace s).
Definition set_bucket (x : gmap Loc (gmap Key (list EffId))) (s : State) : State :=
  mkState (heap s) x (effects s) (activeEffect s) (effectStack s) (shouldTrack s)
    (comps s) (watches s) (queue s) (queue_clear s) (isFlushing s) (microtasks s)
    (next_id s) (trace s).
Definition set_effects (x : gmap EffId EffectRec) (s : State) : State :=
  mkState (heap s) (bucket s) x (activeEffect s) (effectStack s) (shouldTrack s)
    (comps s) (watches s) (queue s) (queue_clear s) (isFlushing s) (microtasks s)
    (next_id s) (trace s).
Definition set_active (x : option EffId) (st : list EffId) (s : State) : State :=
  mkState (heap s) (bucket s) (effects s) x st (shouldTrack s)
    (comps s) (watches s) (queue s) (queue_clear s) (isFlushing s) (microtasks s)
    (next_id s) (trace s).
Definition set_shouldTrack (x : bool) (s : State) : State :=
  mkState (heap s) (bucket s) (effects s) (activeEffect s) (effectStack s) x
    (comps s) (watches s) (queue s) (queue_clear s) (isFlushing s) (microtasks s)
    (next_id s) (trace s).
Definition set_comps (x : gmap CompId CompRec) (s : State) : State :=
  mkState (heap s) (bucket s) (effects s) (activeEffect s) (effectStack s) (shouldTrack s)
    x (watches s) (queue s) (queue_clear s) (isFlushing s) (microtasks s)
    (next_id s) (trace s).
Definition set_watches (x : gmap WatchId WatchRec) (s : State) : State :=
  mkState (heap s) (bucket s) (effects s) (activeEffect s) (effectStack s) (shouldTrack s)
    (comps s) x (queue s) (queue_clear s) (isFlushing s) (microtasks s)
    (next_id s) (trace s).
Definition set_jobs (q : list EffId) (c : option Val) (f : bool) (m : nat) (s : State) : State :=
  mkState (heap s) (bucket s) (effects s) (activeEffect s) (effectStack s) (shouldTrack s)
    (comps s) (watches s) q c f m (next_id s) (trace s).
Definition set_next_id (x : nat) (s : State) : State :=
  mkState (heap s) (bucket s) (effects s) (activeEffect s) (effectStack s) (shouldTrack s)
    (comps s) (watches s) (queue s) (queue_clear s) (isFlushing s) (microtasks s)
    x (trace s).
Definition log (ev : Event) (s : State) : State :=
  mkState (heap s) (bucket s) (effects s) (activeEffect s) (effectStack s) (shouldTrack s)
    (comps s) (watches s) (queue s) (queue_clear s) (isFlushing s) (microtasks s)
    (next_id s) (trace s ++ [ev]).

(** A state with the given raw objects and nothing else *)
Definition init (h : gmap Loc Obj) : State :=
  mkState h ∅ ∅ None [] true ∅ ∅ [] None false 0 0 [].

(** ** Outcomes *)

Inductive Res (A : Type) :=
| Ok (a : A) (s : State)
| Thrown (e : Err) (s : State)
| OutOfFuel.
Arguments Ok {A} a s.
Arguments Thrown {A} e s.
Arguments OutOfFuel {A}.

Definition M (A : Type) : Type := State → Res A.

Definition ret {A} (a : A) : M A := λ s, Ok a s.
Definition throw {A} (e : Err) : M A := λ s, Thrown e s.
Definition bind {A B} (m : M A) (k : A → M B) : M B :=
  λ s, match m s with
       | Ok a s' => k a s'
       | Thrown e s' => Thrown e s'
       | OutOfFuel => OutOfFuel
       end.
Definition modify (f : State → State) : M unit := λ s, Ok () (f s).

Notation "'let!' x := m 'in' k" := (bind m (λ x, k))
  (at level 10, x name, m at level 100, k at level 200).
Notation "m ;; k" := (bind m (λ _, k))
  (at level 100, k at level 200, right associativity).

(** [Set.prototype.forEach] over a Set that the callback does not
    change, and [for] over a list *)
Fixpoint forEach {A} (f : A → M unit) (l : list A) : M unit :=
  match l with
  | [] => ret ()
  | x :: l' => f x ;; forEach f l'
  end.

(** The state a run that finished or threw stopped in *)
Definition final {A} (r : Res A) : option State :=
  match r with
  | Ok _ s | Thrown _ s => Some s
  | OutOfFuel => None
  end.

Definition obj_at (h : gmap Loc Obj) (l : Loc) : Obj :=
  default (mkObj false false ∅) (h !! l).
Definition the_obj (s : State) (l : Loc) : Obj := obj_at (heap s) l.

(** ** The Dependency Store *)

(** [Set.prototype.add] / [delete] *)
Definition set_add (e : EffId) (l : list EffId) : list EffId :=
  if bool_decide (e ∈ l) then l else l ++ [e].
Definition set_delete (e : EffId) (l : list EffId) : list EffId :=
  filter (λ x, x ≠ e) l.

(** The Set stored for (target, key), empty when there is none *)
Definition bdeps (b : gmap Loc (gmap Key (list EffId))) (target : Loc) (key : Key)
  : list EffId :=
  default [] (b !! target ≫= (.!! key)).
Definition deps_of (s : State) (target : Loc) (key : Key) : list EffId :=
  bdeps (bucket s) target key.

Definition push_dep (d : Loc * Key) (r : EffectRec) : EffectRec :=
  mkEffect (e_fn r) (e_lazy r) (e_sched r) (e_deps r ++ [d]).

(** [track(target, key)], lines 169-181.  [shouldTrack] is not read. *)
Definition track (target : Loc) (key : Key) (s : State) : State :=
  match activeEffect s with
  | None => s
  | Some e =>
      let depsMap := default ∅ (bucket s !! target) in
      let deps := default [] (depsMap !! key) in
      set_effects (alter (push_dep (target, key)) e (effects s))
        (set_bucket (<[target := <[key := set_add e deps]> depsMap]> (bucket s)) s)
  end.

(** [cleanup(effectFn)], lines 229-235 *)
Definition cleanup (e : EffId) (s : State) : State :=
  match effects s !! e with
  | None => s
  | Some r =>
      let b := foldl (λ b d, alter (alter (set_delete e) d.2) d.1 b) (bucket s) (e_deps r) in
      set_effects (<[e := mkEffect (e_fn r) (e_lazy r) (e_sched r) []]> (effects s))
        (set_bucket b s)
  end.

(** ** The library, over the function that runs user code *)

Section Runtime.

(** Runs a user function with the fuel that is left. *)
Variable rec : Prog → M Val.

(** *** Effect runtime *)

(** The arrow function [effectFn], lines 241-249.  It has no [return]:
    the call yields [undefined].  [effectStack.pop()] and the line after
    it are skipped when [fn] throws. *)
Definition effectFn (e : EffId) : M Val := λ s,
  match effects s !! e with
  | None => Thrown TypeError s
  | Some r =>
      (modify (cleanup e) ;;
       modify (λ s1, set_active (Some e) (effectStack s1 ++ [e]) s1) ;;
       modify (log (ERun e)) ;;
       rec (e_fn r) ;;
       modify (λ s3, let st := removelast (effectStack s3) in
                     set_active (last st) st s3) ;;
       ret VUndef) s
  end.

(** [effect(fn, options)], lines 240-256 *)
Definition effect (fn : Prog) (lazy : bool) (sch : option Sched) : M EffId := λ s,
  let e := next_id s in
  let s1 := set_next_id (S e)
              (set_effects (<[e := mkEffect fn lazy sch []]> (effects s)) s) in
  if lazy then Ok e s1 else (effectFn e ;; ret e) s1.

(** *** Job queue, lines 529-546 *)

(** [queueJob(job)] up to the registration of the microtask.  The jobs
    are effect handles, as with [scheduler: queueJob]. *)
Definition queueJob (job : EffId) : M unit :=
  modify (λ s,
    let q := set_add job (queue s) in
    if isFlushing s
    then set_jobs q (queue_clear s) (isFlushing s) (microtasks s) s
    else set_jobs q (queue_clear s) true (S (microtasks s)) s).

(** [queue.forEach((job) => job())]: a Set's [forEach] also visits the
    entries added while it runs; nothing is ever removed from [queue],
    so the position [i] walks the live Set. *)
Fixpoint flush_loop (n : nat) (i : nat) : M unit :=
  match n with
  | O => λ _, OutOfFuel
  | S n' => λ s,
      match queue s !! i with
      | None => Ok () s
      | Some job => (effectFn job ;; flush_loop n' (S i)) s
      end
  end.

(** The [finally] block: [isFlushing = false; queue.clear = 0;].  The
    second statement stores the number 0 in the property [clear] of the
    Set; the entries stay. *)
Definition flush_finally (s : State) : State :=
  set_jobs (queue s) (Some (VNum 0)) false (microtasks s) s.

(** The callback given to [p.then] *)
Definition flush (n : nat) : M unit := λ s,
  match flush_loop n 0 s with
  | Ok _ s' => Ok () (flush_finally s')
  | Thrown e s' => Thrown e (flush_finally s')
  | OutOfFuel => OutOfFuel
  end.

(** *** Schedulers *)

Definition upd_watch (w : WatchId) (f : WatchRec → WatchRec) (s : State) : State :=
  set_watches (alter f w (watches s)) s.

(** [job] of [watch], lines 325-329 *)
Definition watch_job (w : WatchId) : M unit := λ s,
  match watches s !! w with
  | None => Thrown TypeError s
  | Some r =>
      (let! v := effectFn (w_effect r) in
       modify (upd_watch w (λ r, mkWatch (w_old r) v (w_effect r) (w_cb r))) ;;
       (λ s1, let old := default VUndef (w_old <$> watches s1 !! w) in
              (rec (w_cb r v old) ;; ret ()) (log (ECb w v old) s1)) ;;
       modify (upd_watch w (λ r, mkWatch (w_new r) (w_new r) (w_effect r) (w_cb r)))) s
  end.

(** [effectFn.options.scheduler(effectFn)] *)
Definition call_scheduler (sch : Sched) (e : EffId) : M unit :=
  match sch with
  | SUser f => rec (f e) ;; ret ()
  | SComputed c =>
      (* if (!dirty) { dirty = true; } *)
      modify (λ s, set_comps
                     (alter (λ r, mkComp (c_value r) true (c_effect r)) c (comps s)) s)
  | SWatch w => watch_job w
  | SQueueJob => queueJob e
  end.

(** *** trigger, lines 184-227 *)

Definition add_all (src dst : list EffId) : list EffId :=
  foldl (λ acc e, set_add e acc) dst src.

(** The callback of [effectsToRun.forEach] *)
Definition run_triggered (e : EffId) : M unit := λ s,
  match effects s !! e with
  | None => Thrown TypeError s
  | Some r =>
      match e_sched r with
      | Some sch => call_scheduler sch e (log (ESched e) s)
      | None => (effectFn e ;; ret ()) s
      end
  end.

(** The local Set [effectsToRun] when its [forEach] starts *)
Definition effectsToRun (depsMap : gmap Key (list EffId)) (key : Key) (type : MutKind)
  : list EffId :=
  let effects := default [] (depsMap !! key) in
  let iterateEffects := default [] (depsMap !! ITERATE_KEY) in
  let toRun := add_all effects [] in
  if bool_decide (type = ADD ∨ type = DELETE) then add_all iterateEffects toRun else toRun.

(** [trigger(target, key, type)].  The parameter list has three names.
    After the [forEach] that runs the effects come two blocks:
    - for an ADD on an array, the effects of ["length"] other than
      [activeEffect] are added to the local [effectsToRun], which nobody
      reads any more;
    - for the key ["length"] of an array, [depsMap.forEach] compares
      every key with [newVal], a name bound neither in [trigger] nor at
      top level: evaluating it for the first entry of the Map throws a
      ReferenceError. *)
Definition trigger (target : Loc) (key : Key) (type : MutKind) : M unit := λ s,
  match bucket s !! target with
  | None => Ok () s
  | Some depsMap =>
      (forEach run_triggered (effectsToRun depsMap key type) ;;
       λ s', if o_array (the_obj s' target) && bool_decide (key = KStr "length")
             then if bool_decide (default ∅ (bucket s' !! target) = ∅)
                  then Ok () s'
                  else Thrown ReferenceError s'
             else Ok () s') s
  end.

(** *** The proxy handler, lines 124-167 *)

Definition proxy_get (target : Loc) (key : Key) : M Val := λ s,
  let s1 := track target key s in
  let o := the_obj s1 target in
  match (if o_array o then is_instrumented key else None) with
  | Some m => Ok (VInstr m) s1
  | None => Ok (obj_get o key) s1
  end.

Definition proxy_has (target : Loc) (key : Key) : M bool := λ s,
  let s1 := track target key s in
  Ok (hasOwn (the_obj s1 target) key) s1.

Definition proxy_ownKeys (target : Loc) : M (gset Key) := λ s,
  let s1 := track target ITERATE_KEY s in
  Ok (dom (o_props (the_obj s1 target))) s1.

Definition proxy_deleteProperty (target : Loc) (key : Key) : M bool := λ s,
  let o := the_obj s target in
  let hadkey := hasOwn o key in
  match Reflect_deleteProperty o key with
  | Some o' =>
      let s1 := set_heap (<[target := o']> (heap s)) s in
      if hadkey then (trigger target key DELETE ;; ret true) s1 else Ok true s1
  | None => Ok false s
  end.

(** The constant [type] of the [set] trap; [Number] of a symbol throws. *)
Definition mutation_type (o : Obj) (key : Key) : Err + MutKind :=
  if o_array o then
    match key with
    | ITERATE_KEY => inl TypeError
    | KStr k =>
        match Number_str k with
        | Some n => if bool_decide (n < arr_length o) then inr SET else inr ADD
        | None => inr ADD
        end
    end
  else if hasOwn o key then inr SET else inr ADD.

(** The [set] trap.  [receiver_raw] evaluates [receiver.raw]. *)
Definition proxy_set (receiver_raw : M Val) (target : Loc) (key : Key) (newVal : Val)
  : M bool := λ s,
  let o := the_obj s target in
  let oldVal := obj_get o key in
  match mutation_type o key with
  | inl err => Thrown err s
  | inr type =>
      match Reflect_set o key newVal with
      | SetThrows err => Thrown err s
      | r =>
          let s1 := match r with
                    | SetDone o' => set_heap (<[target := o']> (heap s)) s
                    | _ => s
                    end in
          let res := match r with SetDone _ => true | _ => false end in
          (let! raw := receiver_raw in
           (if strict_eq (VObj target) raw then
              if strict_neq oldVal newVal
                 && (strict_eq oldVal oldVal || strict_eq newVal newVal)
              then trigger target key type
              else ret ()
            else ret ()) ;;
           ret res) s1
      end
  end.

(** [proxy[key] = newVal]: the receiver is the proxy itself, so
    [receiver.raw] is a read of the key ["raw"] through the [get] trap. *)
Definition proxy_assign (target : Loc) (key : Key) (newVal : Val) : M bool :=
  proxy_set (proxy_get target "raw") target key newVal.

(** *** Array instrumentations, lines 279-289 *)

Definition ToLength (v : Val) : nat :=
  match v with VNum z => Z.to_nat z | _ => 0 end.

(** The abstract operation Set(O, P, V, true) of the native methods *)
Definition Set_or_throw (target : Loc) (key : Key) (v : Val) : M unit :=
  let! ok := proxy_assign target key v in
  if ok : bool then ret () else throw TypeError.

Fixpoint push_items (target : Loc) (len : nat) (args : list Val) : M nat :=
  match args with
  | [] => ret len
  | a :: rest => Set_or_throw target (KStr (pretty len)) a ;; push_items target (S len) rest
  end.

(** [Array.prototype.push] applied to the proxy *)
Definition Array_push (target : Loc) (args : list Val) : M Val :=
  let! lenv := proxy_get target "length" in
  let! len := push_items target (ToLength lenv) args in
  Set_or_throw target "length" (VNum (Z.of_nat len)) ;;
  ret (VNum (Z.of_nat len)).

(** [Array.prototype.pop] applied to the proxy *)
Definition Array_pop (target : Loc) : M Val :=
  let! lenv := proxy_get target "length" in
  match ToLength lenv with
  | O => Set_or_throw target "length" (VNum 0) ;; ret VUndef
  | S n =>
      let! el := proxy_get target (KStr (pretty n)) in
      let! ok := proxy_deleteProperty target (KStr (pretty n)) in
      if ok : bool
      then Set_or_throw target "length" (VNum (Z.of_nat n)) ;; ret el
      else throw TypeError
  end.

(** The function stored for push/pop/shift/unshift/splice; [origin] is
    [originMethod.apply(this, args)]. *)
Definition instrumented_mutator (origin : M Val) : M Val :=
  modify (set_shouldTrack false) ;;
  let! res := origin in
  modify (set_shouldTrack true) ;;
  ret res.

(** [proxy.m(...args)] *)
Definition call_mutator (target : Loc) (m : Mutator) (args : list Val) : M Val :=
  let! f := proxy_get target (KStr (mutator_name m)) in
  if bool_decide (f = VInstr (mutator_name m)) then
    instrumented_mutator
      (match m with
       | Mpush => Array_push target args
       | Mpop => Array_pop target
       end)
  else throw TypeError.

(** *** computed, lines 293-314 *)

Definition computed (getter : Prog) : M CompId := λ s,
  let c := next_id s in
  (let! e := effect getter true (Some (SComputed c)) in
   modify (λ s', set_comps (<[c := mkComp VUndef true e]> (comps s')) s') ;;
   ret c) (set_next_id (S c) s).

(** The getter of [obj.value] *)
Definition computed_value (c : CompId) : M Val := λ s,
  match comps s !! c with
  | None => Thrown TypeError s
  | Some r =>
      if c_dirty r then
        (let! v := effectFn (c_effect r) in
         modify (λ s', set_comps
                         (alter (λ r, mkComp v false (c_effect r)) c (comps s')) s') ;;
         ret v) s
      else Ok (c_value r) s
  end.

(** *** watch, lines 317-339 *)

(** [watch(source, cb)] for a function [source].  The parameter list
    ends after [cb]; whatever else the caller passes ([extra]) is
    dropped.  The test [options.immediate] reads a name that is bound
    neither in [watch] nor at top level. *)
Definition watch (source : Prog) (cb : Val → Val → Prog) (extra : list Val) : M unit := λ s,
  let w := next_id s in
  (let! e := effect source true (Some (SWatch w)) in
   modify (λ s', set_watches (<[w := mkWatch VUndef VUndef e cb]> (watches s')) s') ;;
   throw ReferenceError) (set_next_id (S w) s).

(** *** proxyRefs, lines 387-402 *)

(** [v[k]] for any value.  Primitive values and functions carry none
    of the keys this code reads. *)
Definition js_get (v : Val) (k : Key) : M Val :=
  match v with
  | VUndef | VNull => throw TypeError
  | VObj l => λ s, Ok (obj_get (the_obj s l) k) s
  | VProxy l => proxy_get l k
  | _ => ret VUndef
  end.

(** An ordinary write to a raw object; the boolean of [Reflect.set] *)
Definition raw_set (l : Loc) (k : Key) (x : Val) : M bool := λ s,
  match Reflect_set (the_obj s l) k x with
  | SetDone o' => Ok true (set_heap (<[l := o']> (heap s)) s)
  | SetRefused => Ok false s
  | SetThrows e => Thrown e s
  end.

(** [v[k] = x] in sloppy mode: a refused write is silent. *)
Definition js_set (v : Val) (k : Key) (x : Val) : M unit :=
  match v with
  | VUndef | VNull => throw TypeError
  | VObj l => raw_set l k x ;; ret ()
  | VProxy l => proxy_assign l k x ;; ret ()
  | _ => ret ()
  end.

Definition is_object (v : Val) : bool :=
  match v with VObj _ | VProxy _ => true | _ => false end.

(** The [get] trap of [proxyRefs(target)] *)
Definition proxyRefs_get (target : Val) (key : Key) : M Val :=
  if is_object target then
    let! value := js_get target key in
    let! isRef := js_get value "_v_isRef" in
    if truthy isRef then js_get value "value" else ret value
  else throw TypeError.

(** The [set] trap of [proxyRefs(target)] *)
Definition proxyRefs_set (target : Val) (key : Key) (newValue : Val) : M bool :=
  if is_object target then
    let! value := js_get target key in
    let! isRef := js_get value "_v_isRef" in
    if truthy isRef then js_set value "value" newValue ;; ret true
    else
      match target with
      | VProxy l => proxy_set (proxyRefs_get target "raw") l key newValue
      | VObj l => raw_set l key newValue
      | _ => throw TypeError
      end
  else throw TypeError.

(** *** One call of user code *)

Definition step (p : Prog) : M Val :=
  match p with
  | PRet v => ret v
  | PThrow v => throw (UserError v)
  | PGet l k cont => let! v := proxy_get l k in rec (cont v)
  | PHas l k cont => let! b := proxy_has l k in rec (cont b)
  | POwnKeys l cont => let! ks := proxy_ownKeys l in rec (cont ks)
  | PSet l k v cont => proxy_assign l k v ;; rec cont
  | PDelete l k cont => proxy_deleteProperty l k ;; rec cont
  | PMutate l m args cont => let! v := call_mutator l m args in rec (cont v)
  | PEffect fn lazy sch cont => let! e := effect fn lazy sch in rec (cont e)
  | PCall e cont => let! v := effectFn e in rec (cont v)
  | PComputed g cont => let! c := computed g in rec (cont c)
  | PCompValue c cont => let! v := computed_value c in rec (cont v)
  | PWatch src cb extra cont => watch src cb extra ;; rec cont
  | PQueueJob e cont => queueJob e ;; rec cont
  | PRefsGet t k cont => let! v := proxyRefs_get t k in rec (cont v)
  | PRefsSet t k v cont => proxyRefs_set t k v ;; rec cont
  end.

End Runtime.

(** ** Running user code *)

Fixpoint exec (fuel : nat) (p : Prog) : M Val :=
  match fuel with
  | O => λ _, OutOfFuel
  | S n => step (exec n) p
  end.

(** The end of a turn: the pending microtasks run one after the other; a
    flush that throws rejects its promise and the next one still runs. *)
Fixpoint drain (fuel : nat) : M unit :=
  match fuel with
  | O => λ _, OutOfFuel
  | S n => λ s,
      match microtasks s with
      | O => Ok () s
      | S m =>
          match flush (exec n) n (set_jobs (queue s) (queue_clear s) (isFlushing s) m s) with
          | Ok _ s' | Thrown _ s' => drain n s'
          | OutOfFuel => OutOfFuel
          end
      end
  end.

(** One turn of the event loop: the synchronous code, then the
    microtasks, which run whether or not the code threw. *)
Definition turn (fuel : nat) (p : Prog) : M unit := λ s,
  match exec fuel p s with
  | Ok _ s' | Thrown _ s' => drain fuel s'
  | OutOfFuel => OutOfFuel
  end.

(** ** Observations *)

Definition trace_of {A} (r : Res A) : option (list Event) := trace <$> final r.

Definition value_of {A} (r : Res A) : option A :=
  match r with Ok v _ => Some v | _ => None end.

Definition error_of {A} (r : Res A) : option Err :=
  match r with Thrown e _ => Some e | _ => None end.

(** How often the body of [e] was started *)
Definition runs_of (e : EffId) (tr : list Event) : nat :=
  length (filter (λ ev, ev = ERun e) tr).

(** What the [get] trap returns for [proxy[key]]; it depends on the raw
    objects only. *)
Definition get_result (h : gmap Loc Obj) (target : Loc) (key : Key) : Val :=
  let o := obj_at h target in
  match (if o_array o then is_instrumented key else None) with
  | Some m => VInstr m
  | None => obj_get o key
  end.

(** A computation that only reads through reactive proxies, by reading
    keys and by listing the own keys, each read possibly deciding what is
    read next. *)
Inductive ReadOnly : Prog → Prop :=
| RO_ret v : ReadOnly (PRet v)
| RO_get l k cont : (∀ v, ReadOnly (cont v)) → ReadOnly (PGet l k cont)
| RO_ownKeys l cont : (∀ ks, ReadOnly (cont ks)) → ReadOnly (POwnKeys l cont).

(** The (target, key) pairs such a computation reads when it runs on
    the raw objects [h]; listing the keys of a target counts as a read of
    its iteration key. *)
Fixpoint reads (h : gmap Loc Obj) (p : Prog) : list (Loc * Key) :=
  match p with
  | PGet l k cont => (l, k) :: reads h (cont (get_result h l k))
  | POwnKeys l cont => (l, ITERATE_KEY) :: reads h (cont (dom (o_props (obj_at h l))))
  | _ => []
  end.

(** The reverse index of [e] lists every Set that holds [e]. *)
Definition indexed (e : EffId) (s : State) : Prop :=
  ∀ t k, e ∈ deps_of s t k →
         ∃ r, effects s !! e = Some r ∧ (t, k) ∈ e_deps r.

(** What [Reflect.get(target, key, receiver)] yields in the [get] trap of
    [proxyRefs(target)] *)
Definition current_value (s : State) (target : Val) (key : Key) : Val :=
  match target with
  | VObj l => obj_get (the_obj s l) key
  | VProxy l => get_result (heap s) l key
  | _ => VUndef
  end.

(** Every effect of [L] has a body that only reads, and no scheduler. *)
Definition plain_readers (L : list EffId) (s : State) : Prop :=
  ∀ e, e ∈ L → ∃ r, effects s !! e = Some r ∧ ReadOnly (e_fn r) ∧ e_sched r = None.

(** The effects outside [L] are in the same Sets in [s'] as in [s]. *)
Definition bucket_of_others (L : list EffId) (s s' : State) : Prop :=
  ∀ x t k, x ∉ L → x ∈ deps_of s' t k ↔ x ∈ deps_of s t k.

(** No effect other than [e] is in any Set. *)
Definition only_subscriber (e : EffId) (s : State) : Prop :=
  ∀ x t k, x ∈ deps_of s t k → x = e.

(** [ds] appended to the reverse index *)
Definition add_deps (ds : list (Loc * Key)) (r : EffectRec) : EffectRec :=
  mkEffect (e_fn r) (e_lazy r) (e_sched r) (e_deps r ++ ds).

(** The part of the state that neither tracking nor the effect stack
    touches *)
Definition rest (s : State) :=
  (heap s, shouldTrack s, comps s, watches s, queue s, queue_clear s, isFlushing s,
   microtasks s, next_id s).

(** ** Example objects and programs *)

Definition plain (props : list (Key * Val)) : Obj :=
  mkObj false false (list_to_map props).

Definition array_of (items : list Val) : Obj :=
  mkObj true false
    (list_to_map ((KStr "length", VNum (Z.of_nat (length items)))
                    :: imap (λ i v, (KStr (pretty i), v)) items)).

Definition frozen (o : Obj) : Obj := mkObj (o_array o) true (o_props o).

Definition nothing : Prog := PRet VUndef.

Module Counter.
(** [const obj = {k: 1}], at location 0 *)
Definition objects : gmap Loc Obj := {[ 0 := plain [(KStr "k", VNum 1)] ]}.
(** [() => data.k] *)
Definition reader : Prog := PGet 0 "k" (λ _, nothing).
(** [effect(() => data.k); data.k = 2] *)
Definition subscribe_then_write : Prog :=
  PEffect reader false None (λ _, PSet 0 "k" (VNum 2) nothing).
(** The state in which [effect(() => data.k)] has returned *)
Definition subscribed : option State :=
  final (exec 4 (PEffect reader false None (λ _, nothing)) (init objects)).
(** [() => { data.k; data.k = 1; delete data.k }] *)
Definition read_write_delete : Prog :=
  PGet 0 "k" (λ _, PSet 0 "k" (VNum 1) (PDelete 0 "k" nothing)).
(** [effect(() => { data.k; data.k = 1; delete data.k })] *)
Definition self_feeding_effect : Prog :=
  PEffect read_write_delete false None (λ _, nothing).
(** Effect 0 has that body and no scheduler, [obj] is an ordinary
    object without a key ["raw"], and no other effect is subscribed
    anywhere. *)
Definition self_feeding (s : State) : Prop :=
  (∃ ds, effects s !! 0 = Some (mkEffect read_write_delete false None ds))
  ∧ (∃ o, heap s !! 0 = Some o ∧ o_array o = false ∧ o_frozen o = false
          ∧ o_props o !! KStr "raw" = None)
  ∧ only_subscriber 0 s.
(** [() => { data.k; delete data.k }] *)
Definition read_then_delete : Prog := PGet 0 "k" (λ _, PDelete 0 "k" nothing).
(** [effect(() => { data.k; delete data.k })] *)
Definition self_deleting_effect : Prog :=
  PEffect read_then_delete false None (λ _, nothing).
(** Effect 0 with that body, started by [effect], has read [data.k]; its
    [delete data.k] has removed the key and the [deleteProperty] trap is
    about to call [trigger(obj, "k", "DELETE")]. *)
Definition deleting : State :=
  set_heap {[ 0 := plain [] ]}
    (track 0 "k"
       (log (ERun 0)
          (set_active (Some 0) [0]
             (set_next_id 1
                (set_effects {[ 0 := mkEffect read_then_delete false None [] ]}
                   (init objects)))))).
End Counter.

Module Arr.
(** [const arr = [10, 11, 12]], at location 0 *)
Definition objects : gmap Loc Obj := {[ 0 := array_of [VNum 10; VNum 11; VNum 12] ]}.
Definition frozen_objects : gmap Loc Obj :=
  {[ 0 := frozen (array_of [VNum 10; VNum 11; VNum 12]) ]}.
(** [() => arr[1]] *)
Definition index_reader : Prog := PGet 0 "1" (λ _, nothing).
(** [effect(() => arr[1]); arr.length = 0] *)
Definition subscribe_then_truncate : Prog :=
  PEffect index_reader false None (λ _, PSet 0 "length" (VNum 0) nothing).
Definition subscribed : option State :=
  final (exec 4 (PEffect index_reader false None (λ _, nothing)) (init objects)).
(** The same array with [arr.raw = arr] *)
Definition self_objects : gmap Loc Obj :=
  {[ 0 := mkObj true false
            (<[KStr "raw" := VObj 0]> (o_props (array_of [VNum 10; VNum 11; VNum 12]))) ]}.
(** Effect 0, [() => { arr.push(5) }], is running and has evaluated
    [arr.push]; the instrumented function is about to be called. *)
Definition pushing : State :=
  track 0 "push"
    (set_active (Some 0) [0]
       (set_next_id 1
          (set_effects
             {[ 0 := mkEffect (PMutate 0 Mpush [VNum 5] (λ _, nothing)) false None [] ]}
             (init objects)))).
(** [effect(() => { arr.push(5) })] *)
Definition push_in_effect : Prog :=
  PEffect (PMutate 0 Mpush [VNum 5] (λ _, nothing)) false None (λ _, nothing).
(** [arr.push(5)] at top level *)
Definition push_top : Prog := PMutate 0 Mpush [VNum 5] (λ _, nothing).
End Arr.

Module Derived.
(** [const a = {value: 1}], at location 0 *)
Definition objects : gmap Loc Obj := {[ 0 := plain [(KStr "value", VNum 1)] ]}.
(** [() => a.value] *)
Definition getter : Prog := PGet 0 "value" (λ v, PRet v).
(** [c] (computed 0, internal effect 1) exists and has not been read;
    effect 2, [() => c.value], is running. *)
Definition reading : State :=
  set_comps {[ 0 := mkComp VUndef true 1 ]}
    (set_active (Some 2) [2]
       (set_next_id 3
          (set_effects
             (<[1 := mkEffect getter true (Some (SComputed 0)) []]>
                {[ 2 := mkEffect (PCompValue 0 (λ _, nothing)) false None [] ]})
             (init objects)))).
(** [watch(() => a.value, cb, {immediate: true})], the options object
    at location 1 *)
Definition watch_immediate : Prog :=
  PWatch getter (λ _ _, nothing) [VObj 1] nothing.
(** [effect(() => 42, {lazy: true})()] *)
Definition call_handle : Prog :=
  PEffect (PRet (VNum 42)) true None (λ e, PCall e (λ v, PRet v)).
(** [computed(() => 42).value] *)
Definition read_computed : Prog :=
  PComputed (PRet (VNum 42)) (λ c, PCompValue c (λ v, PRet v)).
End Derived.

Module Branch.
(** [const obj = {ok: true, x: 1, y: 2}], at location 0 *)
Definition objects : gmap Loc Obj :=
  {[ 0 := plain [(KStr "ok", VBool true); (KStr "x", VNum 1); (KStr "y", VNum 2)] ]}.
(** [() => data.ok ? data.x : data.y] *)
Definition body : Prog :=
  PGet 0 "ok" (λ v, if truthy v then PGet 0 "x" (λ w, PRet w) else PGet 0 "y" (λ w, PRet w)).
(** [effect(body, {lazy: true})] has returned the handle 0 *)
Definition registered : State :=
  set_next_id 1 (set_effects {[ 0 := mkEffect body true None [] ]} (init objects)).
(** The effect has run once with [ok] true, then [ok] became false. *)
Definition record : EffectRec :=
  mkEffect body false None [(0, KStr "ok"); (0, KStr "x")].
Definition switched : State :=
  set_bucket {[ 0 := <[KStr "ok" := [0]]> {[ KStr "x" := [0] ]} ]}
    (set_next_id 1
       (set_effects {[ 0 := record ]}
          (init {[ 0 := plain [(KStr "ok", VBool false); (KStr "x", VNum 1);
                               (KStr "y", VNum 2)] ]}))).
(** [const e = effect(body); data.ok = false; e(); data.x = 5] *)
Definition switch_branch : Prog :=
  PEffect body false None
    (λ e, PSet 0 "ok" (VBool false) (PCall e (λ _, PSet 0 "x" (VNum 5) nothing))).
End Branch.

Module Refs.
(** [const setupState = {count: null}], at location 0 *)
Definition objects : gmap Loc Obj := {[ 0 := plain [(KStr "count", VNull)] ]}.
End Refs.

Module Jobs.
(** [const job = effect(() => {}, {lazy: true}); queueJob(job)] *)
Definition queue_new_job : Prog :=
  PEffect nothing true None (λ e, PQueueJob e nothing).
(** [const job = effect(() => { throw "boom" }, {lazy: true}); queueJob(job)] *)
Definition queue_throwing_job : Prog :=
  PEffect (PThrow (VStr "boom")) true None (λ e, PQueueJob e nothing).
End Jobs.

(** ** Well-formed states *)

(** What the library keeps true of its global state:
    - [activeEffect] is the top of [effectStack];
    - the effects on the stack exist;
    - every Set membership is listed in the member's reverse index;
    - effect handles are below the next fresh identity;
    - a Set, and the job queue, holds nothing twice. *)
Definition wf (s : State) : Prop :=
  activeEffect s = last (effectStack s)
  ∧ (∀ e, e ∈ effectStack s → is_Some (effects s !! e))
  ∧ (∀ e, indexed e s)
  ∧ (∀ e, is_Some (effects s !! e) → e < next_id s)
  ∧ (∀ t k, NoDup (deps_of s t k))
  ∧ NoDup (queue s).

(** The outcome [r] of a computation started in [s]: a well-formed
    state; the effect stack as it was when the computation returned, and
    with the effects that were running on top when it threw. *)
Definition post {A} (s : State) (r : Res A) : Prop :=
  match r with
  | Ok _ s' => wf s' ∧ effectStack s' = effectStack s
  | Thrown _ s' => wf s' ∧ effectStack s `prefix_of` effectStack s'
  | OutOfFuel => True
  end.

Definition good {A} (m : M A) : Prop := ∀ s, wf s → post s (m s).

Module Known.
(** [const obj = {k: 1}; obj.raw = obj], at location 0; effect 0,
    [() => data.k], has run once. *)
Definition self : Obj := plain [(KStr "k", VNum 1); (KStr "raw", VObj 0)].
Definition reader : Prog := PGet 0 "k" (λ _, nothing).
Definition record : EffectRec := mkEffect reader false None [(0, KStr "k")].
Definition subscribed : State :=
  set_bucket {[ 0 := {[ KStr "k" := [0] ]} ]}
    (set_next_id 1 (set_effects {[ 0 := record ]} (init {[ 0 := self ]}))).
End Known.

Module Cached.
(** [c] (computed 0, internal effect 1, getter [() => a.value]) has been
    read once at top level: it is clean and effect 1 is subscribed to
    (a, "value"). *)
Definition internal : EffectRec :=
  mkEffect Derived.getter true (Some (SComputed 0)) [(0, KStr "value")].
Definition clean : State :=
  set_comps {[ 0 := mkComp VUndef false 1 ]}
    (set_bucket {[ 0 := {[ KStr "value" := [1] ]} ]}
       (set_next_id 2 (set_effects {[ 1 := internal ]} (init Derived.objects)))).
End Cached.

(** [value._v_isRef] is truthy *)
Definition is_ref (s : State) (v : Val) : bool :=
  truthy (current_value s v "_v_isRef").

Module Setup.
(** [const count = {value: 1}] with the marker [_v_isRef], at location
    1, and [const setupState = {count, label: "a"}], at location 0 *)
Definition wrapper : Obj := plain [(KStr "value", VNum 1); (KStr "_v_isRef", VBool true)].
Definition state_of (r : Val) : Obj := plain [(KStr "count", r); (KStr "label", VStr "a")].
Definition objects (r : Val) : gmap Loc Obj := {[ 0 := state_of r; 1 := wrapper ]}.
End Setup.

(** ** The search methods of arrayInstrumentations, lines 267-277 *)

(** SameValueZero, the comparison of [includes] *)
Definition SameValueZero (a b : Val) : bool :=
  match a, b with
  | VNaN, VNaN => true
  | _, _ => strict_eq a b
  end.

(** [Array.prototype.includes] on the reactive proxy of [target]: every
    element is read through the [get] trap.  [k] is the next index, [n]
    the number of indices left. *)
Fixpoint includes_loop (target : Loc) (search : Val) (k n : nat) : M Val :=
  match n with
  | O => ret (VBool false)
  | S n' =>
      let! el := proxy_get target (KStr (pretty k)) in
      if SameValueZero search el then ret (VBool true)
      else includes_loop target search (S k) n'
  end.

(** [Array.prototype.indexOf] on the reactive proxy: HasProperty goes
    through the [has] trap, the read of a present element through the
    [get] trap, and the comparison is [===]. *)
Fixpoint indexOf_loop (target : Loc) (search : Val) (k n : nat) : M Val :=
  match n with
  | O => ret (VNum (-1))
  | S n' =>
      let! present := proxy_has target (KStr (pretty k)) in
      if present : bool then
        let! el := proxy_get target (KStr (pretty k)) in
        if strict_eq search el then ret (VNum (Z.of_nat k))
        else indexOf_loop target search (S k) n'
      else indexOf_loop target search (S k) n'
  end.

(** The elements an array-like raw value shows to a native method: the
    characters of a string, the indexed properties of an object below its
    [length], nothing for the other values that ToObject accepts. *)
Definition raw_elements (s : State) (v : Val) : list (option Val) :=
  match v with
  | VObj l =>
      let o := the_obj s l in
      (λ i, o_props o !! KStr (pretty i)) <$> seq 0 (ToLength (obj_get o "length"))
  | VStr str => (λ c, Some (VStr (String c EmptyString))) <$> String.list_ascii_of_string str
  | _ => []
  end.

Fixpoint find_index (p : Val → bool) (els : list (option Val)) (k : nat) : option nat :=
  match els with
  | [] => None
  | el :: rest =>
      match el with
      | Some v => if p v then Some k else find_index p rest (S k)
      | None => find_index p rest (S k)
      end
  end.

(** [originMethod.apply(thisValue, [search])] for [includes] *)
Definition native_includes (search : Val) (thisValue : Val) : M Val :=
  match thisValue with
  | VUndef | VNull => throw TypeError
  | VProxy l =>
      let! lenv := proxy_get l "length" in
      includes_loop l search 0 (ToLength lenv)
  | _ => λ s,
      Ok (VBool (existsb (λ el, SameValueZero search (default VUndef el))
                   (raw_elements s thisValue))) s
  end.

(** [originMethod.apply(thisValue, [search])] for [indexOf] *)
Definition native_indexOf (search : Val) (thisValue : Val) : M Val :=
  match thisValue with
  | VUndef | VNull => throw TypeError
  | VProxy l =>
      let! lenv := proxy_get l "length" in
      indexOf_loop l search 0 (ToLength lenv)
  | _ => λ s,
      Ok (match find_index (strict_eq search) (raw_elements s thisValue) 0 with
          | Some i => VNum (Z.of_nat i)
          | None => VNum (-1)
          end) s
  end.

(** The function stored for includes/indexOf/lastIndexOf, called with
    the proxy of [target] as [this]; [origin] is the native method with
    its arguments. *)
Definition instrumented_search (origin : Val → M Val) (target : Loc) : M Val :=
  let! res := origin (VProxy target) in
  if strict_eq res (VBool false) || strict_eq res (VNum (-1)) then
    let! raw := proxy_get target "raw" in
    origin raw
  else ret res.

(** [proxy.includes(search)] and [proxy.indexOf(search)] *)
Definition call_includes (target : Loc) (search : Val) : M Val :=
  let! f := proxy_get target "includes" in
  if bool_decide (f = VInstr "includes")
  then instrumented_search (native_includes search) target
  else throw TypeError.

Definition call_indexOf (target : Loc) (search : Val) : M Val :=
  let! f := proxy_get target "indexOf" in
  if bool_decide (f = VInstr "indexOf")
  then instrumented_search (native_indexOf search) target
  else throw TypeError.

(** [track(target, key)] for each of [keys] in turn *)
Definition track_all (target : Loc) (keys : list Key) (s : State) : State :=
  foldl (λ st key, track target key st) s keys.

(** The keys of the indices [k], ..., [k + n - 1] *)
Definition index_keys (k n : nat) : list Key := (λ i, KStr (pretty i)) <$> seq k n.

Module Inventory.
(** [const arr = [10, NaN, 12]], at location 0, without and with
    [arr.raw = arr]; effect 0 is running. *)
Definition items : Obj := array_of [VNum 10; VNaN; VNum 12].
Definition known : Obj := mkObj true false (<[KStr "raw" := VObj 0]> (o_props items)).
Definition running (o : Obj) : State :=
  set_active (Some 0) [0]
    (set_next_id 1 (set_effects {[ 0 := mkEffect nothing false None [] ]} (init {[ 0 := o ]}))).
End Inventory.

(** ** myInstanceof, lines 639-646 *)

Definition nullish (v : Val) : bool :=
  match v with VUndef | VNull => true | _ => false end.

Section Prototypes.
(** [v.__proto__] of a value that is not nullish, and [v.prototype] *)
Variable proto_of : Val → Val.
Variable prototype_of : Val → Val.

(** One unit of [fuel] per turn of the [while] loop; [None] when it runs
    out.  [origin.prototype] is read in every turn, and throws when
    [origin] is [undefined] or [null]. *)
Fixpoint myInstanceof (fuel : nat) (target origin : Val) : option (Err + bool) :=
  match fuel with
  | O => None
  | S fuel' =>
      if truthy target then
        if nullish origin then Some (inl TypeError)
        else if strict_eq (proto_of target) (prototype_of origin) then Some (inr true)
        else myInstanceof fuel' (proto_of target) origin
      else Some (inr false)
  end.

(** The [i]-th value on the [__proto__] chain of [target] *)
Definition chain (target : Val) (i : nat) : Val := Nat.iter i proto_of target.
End Prototypes.

Module Lineage.
(** [class A {}; class B extends A {}; const b = new B()], with [b] at
    0, [B.prototype] at 1, [A.prototype] at 2, [Object.prototype] at 3, and
    the constructors [B], [A], [Object] at 11, 12, 13. *)
Definition proto_of (v : Val) : Val :=
  match v with
  | VObj 0 => VObj 1
  | VObj 1 => VObj 2
  | VObj 2 => VObj 3
  | _ => VNull
  end.
Definition prototype_of (v : Val) : Val :=
  match v with
  | VObj 11 => VObj 1
  | VObj 12 => VObj 2
  | VObj 13 => VObj 3
  | _ => VUndef
  end.
End Lineage.

(** ** dispatch and broadcast, lines 614-637 *)

(** What the two functions read of a component instance: its identity
    and [$options.componentName]. *)
Record Vm := mkVm { vm_id : CompId; vm_name : Val }.

(** An instance with its [$children] *)
#[warnings="-register-all"]
Inductive Tree := Node (vm : Vm) (children : list Tree).

Definition root_vm (t : Tree) : Vm := match t with Node vm _ => vm end.
Definition children_of (t : Tree) : list Tree := match t with Node _ cs => cs end.

(** The third argument of both functions: an array, which [concat]
    spreads, or any other value *)
Inductive Params := PArray (items : list Val) | PValue (v : Val).

(** [[eventName].concat(params)] *)
Definition emit_args (eventName : Val) (params : Params) : list Val :=
  eventName :: match params with PArray items => items | PValue v => [v] end.

(** A call [vm.$emit(...args)] *)
Abbreviation Emit := (CompId * list Val)%type.

(** The [while] loop of [dispatch], lines 617-622: [parent] is the
    instance under inspection, [above] the chain of its [$parent]s,
    nearest first, and [name] the variable of that name. *)
Fixpoint dispatch_loop (componentName : Val) (parent : Vm) (above : list Vm) (name : Val)
    {struct above} : option Vm :=
  if negb (truthy name) || strict_neq name componentName then
    match above with
    | [] => None
    | p :: above' => dispatch_loop componentName p above' (vm_name p)
    end
  else Some parent.

(** [dispatch.call(this, componentName, eventName, params)], where
    [ancestors] is the chain of [$parent]s of [this]; an instance without
    [$parent] is its own [$root]. *)
Definition dispatch (this : Vm) (ancestors : list Vm) (componentName eventName : Val)
    (params : Params) : list Emit :=
  let '(parent, above) :=
    match ancestors with
    | [] => (this, [])
    | p :: above => (p, above)
    end in
  match dispatch_loop componentName parent above (vm_name parent) with
  | Some p => [(vm_id p, emit_args eventName params)]
  | None => []
  end.

(** [broadcast.call(this, componentName, eventName, params)]: the calls
    of [$emit], in order. *)
Fixpoint broadcast (this : Tree) (componentName eventName : Val) (params : Params)
    : list Emit :=
  match this with
  | Node _ children =>
      flat_map (λ child,
                  if strict_eq (vm_name (root_vm child)) componentName
                  then [(vm_id (root_vm child), emit_args eventName params)]
                  else broadcast child componentName eventName params)
               children
  end.

(** [d] is a descendant of [t] named [componentName] with no instance
    of that name strictly between [t] and [d]. *)
Inductive topmost (componentName : Val) : Tree → Tree → Prop :=
| topmost_child t d :
    d ∈ children_of t → strict_eq (vm_name (root_vm d)) componentName = true →
    topmost componentName t d
| topmost_below t c d :
    c ∈ children_of t → strict_eq (vm_name (root_vm c)) componentName = false →
    topmost componentName c d →
    topmost componentName t d.

Module Form.
(** A form (1) with an unnamed wrapper (2) around an item (3) that
    holds an input (4) and a nested item (5), and a second item (6). *)
Definition input : Tree := Node (mkVm 4 (VStr "Input")) [].
Definition inner : Tree := Node (mkVm 5 (VStr "Item")) [].
Definition item : Tree := Node (mkVm 3 (VStr "Item")) [input; inner].
Definition wrapper : Tree := Node (mkVm 2 VUndef) [item].
Definition second : Tree := Node (mkVm 6 (VStr "Item")) [].
Definition form : Tree := Node (mkVm 1 (VStr "Form")) [wrapper; second].
(** The [$parent] chain of the input *)
Definition above_input : list Vm :=
  [mkVm 3 (VStr "Item"); mkVm 2 VUndef; mkVm 1 (VStr "Form")].
End Form.

(** [vm] carries the name [componentName], as [dispatch] tests it *)
Definition named (componentName : Val) (vm : Vm) : bool :=
  truthy (vm_name vm) && strict_eq (vm_name vm) componentName.

(** ** Keys outside the own-property model *)


(** The marker that [ref] and [toRef] create with
    [Object.defineProperty(wrapper, "_v_isRef", {value: true})]: it is
    neither writable nor configurable, unlike the properties that an
    object literal or an assignment creates. *)
Definition ref_marker : Key := KStr "_v_isRef".

Module Listed.
(** [const obj = {k: 1}; obj.raw = obj], at location 0; effect 0,
    [() => data.k], and effect 1, [() => Reflect.ownKeys(data)], have run
    once. *)
Definition lister : Prog := POwnKeys 0 (λ _, nothing).
Definition lister_record : EffectRec := mkEffect lister false None [(0, ITERATE_KEY)].
Definition subscribed : State :=
  set_bucket {[ 0 := <[ITERATE_KEY := [1]]> {[ KStr "k" := [0] ]} ]}
    (set_next_id 2
       (set_effects (<[1 := lister_record]> {[ 0 := Known.record ]})
          (init {[ 0 := Known.self ]}))).
End Listed.

(** * Properties *)

(** ** Sets and the bucket *)

Lemma elem_of_set_add (x e : EffId) (l : list EffId) :
  x ∈ set_add e l ↔ x = e ∨ x ∈ l.
Proof.
  unfold set_add. case_bool_decide as He.
  - split; [by right | intros [-> | ?]; done].
  - rewrite elem_of_app, list_elem_of_singleton. tauto.
Qed.

Lemma elem_of_set_delete (x e : EffId) (l : list EffId) :
  x ∈ set_delete e l ↔ x ∈ l ∧ x ≠ e.
Proof. unfold set_delete. rewrite list_elem_of_filter. tauto. Qed.

Lemma set_delete_idemp (e : EffId) (l : list EffId) :
  set_delete e (set_delete e l) = set_delete e l.
Proof.
  unfold set_delete. induction l as [|x l IH]; [done|].
  rewrite filter_cons. case_decide as Hx; [|done].
  rewrite filter_cons. rewrite decide_True by done. by f_equal.
Qed.

Lemma elem_of_add_all (x : EffId) (src dst : list EffId) :
  x ∈ add_all src dst ↔ x ∈ src ∨ x ∈ dst.
Proof.
  unfold add_all. revert dst. induction src as [|a src IH]; intros dst; simpl.
  - rewrite elem_of_nil. tauto.
  - rewrite IH, elem_of_set_add, elem_of_cons. tauto.
Qed.

Lemma bdeps_insert (b : gmap Loc (gmap Key (list EffId))) t k l t' k' :
  bdeps (<[t := <[k := l]> (default ∅ (b !! t))]> b) t' k'
  = if decide (t = t' ∧ k = k') then l else bdeps b t' k'.
Proof.
  unfold bdeps. destruct (decide (t = t')) as [->|Ht].
  - rewrite lookup_insert_eq. simpl. destruct (decide (k = k')) as [->|Hk].
    + rewrite lookup_insert_eq. by rewrite decide_True.
    + rewrite lookup_insert_ne by done. rewrite decide_False by tauto.
      destruct (b !! t') as [m|]; simpl; [done|]. by rewrite lookup_empty.
  - rewrite lookup_insert_ne by done. by rewrite decide_False by tauto.
Qed.

Lemma bdeps_alter (b : gmap Loc (gmap Key (list EffId))) (f : list EffId → list EffId) t k t' k' :
  f [] = [] →
  bdeps (alter (alter f k) t b) t' k'
  = if decide (t = t' ∧ k = k') then f (bdeps b t' k') else bdeps b t' k'.
Proof.
  intros Hf. unfold bdeps. destruct (decide (t = t')) as [->|Ht].
  - rewrite lookup_alter_eq. destruct (b !! t') as [m|]; simpl.
    + destruct (decide (k = k')) as [->|Hk].
      * rewrite lookup_alter_eq. rewrite decide_True by done.
        by destruct (m !! k').
      * rewrite lookup_alter_ne by done. by rewrite decide_False by tauto.
    + case_decide; done.
  - rewrite lookup_alter_ne by done. by rewrite decide_False by tauto.
Qed.

Lemma bdeps_cleanup (e : EffId) (ds : list (Loc * Key)) (b : gmap Loc (gmap Key (list EffId))) t k :
  bdeps (foldl (λ b d, alter (alter (set_delete e) d.2) d.1 b) b ds) t k
  = if decide ((t, k) ∈ ds) then set_delete e (bdeps b t k) else bdeps b t k.
Proof.
  revert b. induction ds as [|[t0 k0] ds IH]; intros b.
  - destruct (decide ((t, k) ∈ [])) as [H|_]; [by apply elem_of_nil in H | done].
  - cbn [foldl]. rewrite IH. cbn [fst snd]. rewrite bdeps_alter by done.
    destruct (decide (t0 = t ∧ k0 = k)) as [[-> ->]|Hne].
    + destruct (decide ((t, k) ∈ (t, k) :: ds)) as [_|H];
        [|exfalso; apply H, list_elem_of_here].
      destruct (decide ((t, k) ∈ ds)); [apply set_delete_idemp | done].
    + destruct (decide ((t, k) ∈ ds)) as [Hin|Hin].
      * destruct (decide ((t, k) ∈ (t0, k0) :: ds)) as [_|H];
          [done | exfalso; by apply H, list_elem_of_further].
      * destruct (decide ((t, k) ∈ (t0, k0) :: ds)) as [H|_]; [|done].
        exfalso. apply elem_of_cons in H as [Heq|?]; [|done].
        apply Hne. by inversion Heq.
Qed.

(** ** track and cleanup *)

Lemma track_rest t k s :
  rest (track t k s) = rest s ∧ trace (track t k s) = trace s
  ∧ activeEffect (track t k s) = activeEffect s
  ∧ effectStack (track t k s) = effectStack s.
Proof. unfold track. by destruct (activeEffect s) eqn:E. Qed.

Lemma track_heap t k s : heap (track t k s) = heap s.
Proof. unfold track. by destruct (activeEffect s). Qed.

Lemma track_inactive t k s : activeEffect s = None → track t k s = s.
Proof. unfold track. by intros ->. Qed.

Lemma track_deps t k s e x t' k' :
  activeEffect s = Some e →
  x ∈ deps_of (track t k s) t' k' ↔ x ∈ deps_of s t' k' ∨ (x = e ∧ t = t' ∧ k = k').
Proof.
  intros He. unfold track, deps_of. rewrite He. cbn [bucket set_effects set_bucket].
  assert (default [] (default ∅ (bucket s !! t) !! k) = bdeps (bucket s) t k) as ->.
  { unfold bdeps. destruct (bucket s !! t); simpl; [done|]. by rewrite lookup_empty. }
  rewrite bdeps_insert. case_decide as Htk.
  - destruct Htk as [-> ->]. rewrite elem_of_set_add. tauto.
  - tauto.
Qed.

Lemma track_effects t k s e :
  activeEffect s = Some e →
  effects (track t k s) = alter (add_deps [(t, k)]) e (effects s).
Proof. intros He. unfold track. by rewrite He. Qed.

(** [track] never looks at [shouldTrack]. *)
Lemma track_ignores_shouldTrack t k s b :
  track t k (set_shouldTrack b s) = set_shouldTrack b (track t k s).
Proof. unfold track. cbn [activeEffect set_shouldTrack]. by destruct (activeEffect s). Qed.

Lemma cleanup_rest e s :
  rest (cleanup e s) = rest s ∧ trace (cleanup e s) = trace s
  ∧ activeEffect (cleanup e s) = activeEffect s
  ∧ effectStack (cleanup e s) = effectStack s.
Proof. unfold cleanup. by destruct (effects s !! e). Qed.

Lemma cleanup_deps e s r x t k :
  effects s !! e = Some r →
  x ∈ deps_of (cleanup e s) t k ↔ x ∈ deps_of s t k ∧ ¬ (x = e ∧ (t, k) ∈ e_deps r).
Proof.
  intros Hr. unfold cleanup, deps_of. rewrite Hr. cbn [bucket set_effects set_bucket].
  rewrite bdeps_cleanup. case_decide as Hin.
  - rewrite elem_of_set_delete. tauto.
  - tauto.
Qed.

Lemma cleanup_effects e s r :
  effects s !! e = Some r →
  effects (cleanup e s) = <[e := mkEffect (e_fn r) (e_lazy r) (e_sched r) []]> (effects s).
Proof. intros Hr. unfold cleanup. by rewrite Hr. Qed.

(** ** Read-only computations *)

Lemma proxy_get_eq l k s :
  proxy_get l k s = Ok (get_result (heap s) l k) (track l k s).
Proof.
  unfold proxy_get, get_result, the_obj. rewrite track_heap.
  by destruct (if o_array (obj_at (heap s) l) then is_instrumented k else None).
Qed.

Lemma add_deps_nil r : add_deps [] r = r.
Proof. destruct r. unfold add_deps. simpl. by rewrite app_nil_r. Qed.

Lemma add_deps_app ds1 ds2 r : add_deps ds2 (add_deps ds1 r) = add_deps (ds1 ++ ds2) r.
Proof. unfold add_deps. simpl. by rewrite app_assoc. Qed.

(** A read-only computation started while [e] is active finishes; it
    adds [e] to the Sets of the keys it reads and changes nothing else. *)
Lemma exec_readonly p :
  ReadOnly p → ∀ s e, activeEffect s = Some e →
  ∃ n v s',
    (∀ m, n ≤ m → exec m p s = Ok v s')
    ∧ rest s' = rest s ∧ trace s' = trace s
    ∧ activeEffect s' = Some e ∧ effectStack s' = effectStack s
    ∧ effects s' = alter (add_deps (reads (heap s) p)) e (effects s)
    ∧ ∀ x t k, x ∈ deps_of s' t k ↔ x ∈ deps_of s t k ∨ (x = e ∧ (t, k) ∈ reads (heap s) p).
Proof.
  induction 1 as [v | l k cont _ IH | l cont _ IH]; intros s e He.
  - exists 1, v, s. split_and!; try done.
    + intros [|m] ?; [lia | done].
    + cbn [reads]. symmetry. apply alter_id. intros r _. apply add_deps_nil.
    + intros x t k. cbn [reads]. rewrite elem_of_nil. tauto.
  - destruct (track_rest l k s) as (Hr & Htr & Ha & Hst).
    destruct (IH (get_result (heap s) l k) (track l k s) e) as (n & v & s' & Hex & Hr' & Htr' & Ha' & Hst' & Heff & Hd).
    { by rewrite Ha. }
    exists (S n), v, s'. split_and!.
    + intros [|m] Hm; [lia|]. cbn [exec step]. unfold bind. rewrite proxy_get_eq.
      apply Hex. lia.
    + by rewrite Hr'.
    + by rewrite Htr'.
    + done.
    + by rewrite Hst'.
    + rewrite Heff, (track_effects _ _ _ e) by done. rewrite track_heap.
      rewrite alter_alter_eq. apply alter_ext. intros r _. apply add_deps_app.
    + intros x t k'. rewrite Hd, (track_deps _ _ _ e) by done. rewrite track_heap.
      cbn [reads]. rewrite elem_of_cons.
      split; [intros [[?|(-> & -> & ->)]|[-> ?]] | intros [?|[-> [Heq|?]]]]; try tauto.
      inversion Heq; subst. tauto.
  - destruct (track_rest l ITERATE_KEY s) as (Hr & Htr & Ha & Hst).
    destruct (IH (dom (o_props (obj_at (heap s) l))) (track l ITERATE_KEY s) e)
      as (n & v & s' & Hex & Hr' & Htr' & Ha' & Hst' & Heff & Hd).
    { by rewrite Ha. }
    exists (S n), v, s'. split_and!.
    + intros [|m] Hm; [lia|]. cbn [exec step]. unfold bind, proxy_ownKeys, the_obj.
      rewrite track_heap. apply Hex. lia.
    + by rewrite Hr'.
    + by rewrite Htr'.
    + done.
    + by rewrite Hst'.
    + rewrite Heff, (track_effects _ _ _ e) by done. rewrite track_heap.
      rewrite alter_alter_eq. apply alter_ext. intros r _. apply add_deps_app.
    + intros x t k'. rewrite Hd, (track_deps _ _ _ e) by done. rewrite track_heap.
      cbn [reads]. rewrite elem_of_cons.
      split; [intros [[?|(-> & -> & ->)]|[-> ?]] | intros [?|[-> [Heq|?]]]]; try tauto.
      inversion Heq; subst. tauto.
Qed.

(** Running an effect whose body only reads: the run finishes, returns
    [undefined], and leaves the effect in exactly the Sets of the keys it
    read, provided its reverse index covered the Sets it was in. *)
Lemma effectFn_readonly s e r :
  effects s !! e = Some r → ReadOnly (e_fn r) →
  ∃ n s',
    (∀ m, n ≤ m → effectFn (exec m) e s = Ok VUndef s')
    ∧ rest s' = rest s ∧ trace s' = trace s ++ [ERun e]
    ∧ effectStack s' = effectStack s ∧ activeEffect s' = last (effectStack s)
    ∧ effects s'
      = <[e := mkEffect (e_fn r) (e_lazy r) (e_sched r) (reads (heap s) (e_fn r))]> (effects s)
    ∧ ∀ x t k, x ∈ deps_of s' t k ↔
               (x ∈ deps_of s t k ∧ ¬ (x = e ∧ (t, k) ∈ e_deps r))
               ∨ (x = e ∧ (t, k) ∈ reads (heap s) (e_fn r)).
Proof.
  intros Hr Hro.
  destruct (cleanup_rest e s) as (Hc1 & Hc2 & Hc3 & Hc4).
  set (s3 := log (ERun e)
               (set_active (Some e) (effectStack (cleanup e s) ++ [e]) (cleanup e s))).
  destruct (exec_readonly _ Hro s3 e eq_refl)
    as (n & v & s4 & Hex & Hr4 & Htr4 & Ha4 & Hst4 & Heff4 & Hd4).
  assert (heap s3 = heap s) as Hh3.
  { change (heap s3) with (heap (cleanup e s)). by injection Hc1. }
  exists n, (let st := removelast (effectStack s4) in set_active (last st) st s4).
  assert (removelast (effectStack s4) = effectStack s) as Hpop.
  { rewrite Hst4. change (effectStack s3) with (effectStack (cleanup e s) ++ [e]).
    rewrite Hc4. apply removelast_last. }
  split_and!.
  - intros m Hm. unfold effectFn. rewrite Hr. unfold bind, modify, ret.
    fold s3. by rewrite (Hex m Hm).
  - cbn zeta. change (rest (set_active ?a ?b s4)) with (rest s4). rewrite Hr4.
    change (rest s3) with (rest (cleanup e s)). done.
  - cbn zeta. cbn [trace set_active]. rewrite Htr4. cbn [s3 trace log set_active].
    by rewrite Hc2.
  - cbn zeta. cbn [effectStack set_active]. done.
  - cbn zeta. cbn [activeEffect set_active]. by rewrite Hpop.
  - cbn zeta. cbn [effects set_active]. rewrite Heff4, Hh3.
    change (effects s3) with (effects (cleanup e s)).
    rewrite (cleanup_effects _ _ _ Hr). rewrite alter_insert_eq. done.
  - intros x t k. cbn zeta. change (deps_of (set_active ?a ?b s4)) with (deps_of s4).
    rewrite Hd4, Hh3. change (deps_of s3 t k) with (deps_of (cleanup e s) t k).
    rewrite (cleanup_deps _ _ _ _ _ _ Hr). tauto.
Qed.

(** ** trigger and the set trap *)

Lemma elem_of_effectsToRun s t k type x :
  x ∈ effectsToRun (default ∅ (bucket s !! t)) k type
  ↔ x ∈ deps_of s t k ∨ (type ≠ SET ∧ x ∈ deps_of s t ITERATE_KEY).
Proof.
  assert (∀ k', default [] (default ∅ (bucket s !! t) !! k') = deps_of s t k') as Hd.
  { intros k'. unfold deps_of, bdeps. destruct (bucket s !! t); simpl; [done|].
    by rewrite lookup_empty. }
  unfold effectsToRun. rewrite !Hd. case_bool_decide as Hty.
  - rewrite !elem_of_add_all, elem_of_nil.
    split; [intros [?|[?|[]]]|intros [?|[_ ?]]]; try tauto.
    right. split; [|done]. by destruct Hty as [-> | ->].
  - rewrite elem_of_add_all, elem_of_nil.
    split; [intros [?|[]]; tauto | intros [?|[Hne _]]; [tauto|]].
    destruct type; try done; exfalso; tauto.
Qed.

(** With no effect to run, [trigger] leaves the state as it is, whether
    it returns or throws. *)
Lemma trigger_nothing rec t k type s :
  effectsToRun (default ∅ (bucket s !! t)) k type = [] →
  final (trigger rec t k type s) = Some s.
Proof.
  intros Hnil. unfold trigger. destruct (bucket s !! t) as [dm|] eqn:Hb; [|done].
  simpl in Hnil. rewrite Hnil. unfold bind. simpl.
  destruct (o_array (the_obj s t) && bool_decide (k = KStr "length")); [|done].
  by case_bool_decide.
Qed.

(** The condition under which the [set] trap calls [trigger] is false
    for a value written over itself, NaN included. *)
Lemma same_value_guard v :
  strict_neq v v && (strict_eq v v || strict_eq v v) = false.
Proof.
  unfold strict_neq, strict_eq. destruct v; try done;
    rewrite bool_decide_true by done; done.
Qed.

Lemma strict_eq_obj t v : v ≠ VObj t → strict_eq (VObj t) v = false.
Proof.
  intros Hne. unfold strict_eq. destruct v; try done;
    apply bool_decide_false; congruence.
Qed.

(** A write leaves the own property ["raw"] of the target alone, unless
    it is the key written. *)
Lemma Reflect_set_raw o k v o' :
  Reflect_set o k v = SetDone o' → k ≠ KStr "raw" →
  obj_get o' "raw" = obj_get o "raw" ∧ o_array o' = o_array o.
Proof.
  unfold Reflect_set, obj_get. intros H Hk.
  destruct (o_frozen o); [done|]. destruct (o_array o) eqn:Harr.
  - case_bool_decide as Hlen.
    + destruct (length_of_val v) as [n|]; [|done]. inversion H; subst; clear H.
      cbn [o_props o_array]. split; [|done].
      rewrite lookup_insert_ne by done.
      destruct (o_props o !! KStr "raw") as [x|] eqn:Hx.
      * assert (filter (λ kv : Key * Val, keep_below n kv.1 = true) (o_props o)
                  !! KStr "raw" = Some x) as ->; [|done].
        apply map_lookup_filter_Some. split; [done|]. by vm_compute.
      * assert (filter (λ kv : Key * Val, keep_below n kv.1 = true) (o_props o)
                  !! KStr "raw" = None) as ->; [|done].
        apply map_lookup_filter_None. by left.
    + destruct (index_of_key k); inversion H; subst; clear H; cbn [o_props o_array];
        (split; [|done]).
      * case_bool_decide; rewrite ?lookup_insert_ne by done; done.
      * by rewrite lookup_insert_ne.
  - inversion H; subst; clear H. cbn [o_props o_array]. split; [|done].
    by rewrite lookup_insert_ne.
Qed.

(** *** What a write through the proxy notifies *)

Section Assign.
Variable rec : Prog → M Val.

(** The [get] trap has no case for the key ["raw"]: [receiver.raw] is
    the own property ["raw"] of the target.  Unless the target stores
    itself there, the [set] trap never reaches [trigger]. *)
Lemma proxy_assign_without_raw t k v s :
  k ≠ KStr "raw" → obj_get (the_obj s t) "raw" ≠ VObj t →
  ∃ s', final (proxy_assign rec t k v s) = Some s' ∧ trace s' = trace s.
Proof.
  intros Hk Hraw. unfold proxy_assign, proxy_set.
  destruct (mutation_type (the_obj s t) k) as [err|type]; [by exists s|].
  destruct (Reflect_set (the_obj s t) k v) as [o'| |err] eqn:Hset; [| |by exists s].
  - destruct (Reflect_set_raw _ _ _ _ Hset Hk) as [Hr Ha].
    unfold bind. rewrite proxy_get_eq. unfold get_result.
    cbn [heap set_heap]. unfold obj_at. rewrite lookup_insert_eq.
    cbn [default from_option id].
    replace (if o_array o' then is_instrumented "raw" else None) with (@None string)
      by (by destruct (o_array o')).
    rewrite Hr, strict_eq_obj by done. unfold ret.
    eexists. split; [done|]. by destruct (track_rest t "raw" (set_heap (<[t:=o']> (heap s)) s)) as (_ & -> & _).
  - unfold bind. rewrite proxy_get_eq. unfold get_result.
    replace (if o_array (obj_at (heap s) t) then is_instrumented "raw" else None)
      with (@None string) by (by destruct (o_array (obj_at (heap s) t))).
    unfold the_obj in Hraw. rewrite strict_eq_obj by done. unfold ret.
    eexists. split; [done|]. by destruct (track_rest t "raw" s) as (_ & -> & _).
Qed.

(** Writing the value a key already has (NaN over NaN included)
    notifies nobody. *)
Lemma proxy_assign_same_value t k s :
  ∃ s', final (proxy_assign rec t k (obj_get (the_obj s t) k) s) = Some s'
        ∧ trace s' = trace s.
Proof.
  unfold proxy_assign, proxy_set.
  destruct (mutation_type (the_obj s t) k) as [err|type]; [by exists s|].
  destruct (Reflect_set (the_obj s t) k _) as [o'| |err] eqn:Hset; [| |by exists s];
    unfold bind; rewrite proxy_get_eq, same_value_guard; unfold ret;
    match goal with
    | |- context [track t ?key ?s0] =>
        destruct (track_rest t key s0) as (_ & Htr & _)
    end;
    destruct (strict_eq (VObj t) _); eexists; (split; [done|]); by rewrite Htr.
Qed.

(** A write made outside every effect to a key that nobody is
    subscribed to (neither to the iteration key) runs nothing. *)
Lemma proxy_assign_quiet t k v s :
  activeEffect s = None →
  (∀ x, x ∉ deps_of s t k) → (∀ x, x ∉ deps_of s t ITERATE_KEY) →
  ∃ s', final (proxy_assign rec t k v s) = Some s' ∧ trace s' = trace s.
Proof.
  intros Ha Hk Hit. unfold proxy_assign, proxy_set.
  destruct (mutation_type (the_obj s t) k) as [err|type]; [by exists s|].
  assert (∀ s1, bucket s1 = bucket s → activeEffect s1 = None → trace s1 = trace s →
    ∃ s', final ((let! raw := proxy_get t "raw" in
                  (if strict_eq (VObj t) raw
                   then if strict_neq (obj_get (the_obj s t) k) v
                           && (strict_eq (obj_get (the_obj s t) k) (obj_get (the_obj s t) k)
                               || strict_eq v v)
                        then trigger rec t k type else ret ()
                   else ret ());; ret ((match Reflect_set (the_obj s t) k v with
                                       | SetDone _ => true | _ => false end))) s1)
          = Some s' ∧ trace s' = trace s) as Hgo.
  { intros s1 Hb Ha1 Htr. unfold bind at 1. rewrite proxy_get_eq.
    rewrite (track_inactive _ _ _ Ha1).
    destruct (strict_eq (VObj t) _); [|by exists s1].
    destruct (_ && _); [|by exists s1].
    assert (final (trigger rec t k type s1) = Some s1) as Hfin.
    { apply trigger_nothing. apply elem_of_nil_inv. intros x.
      rewrite elem_of_effectsToRun. unfold deps_of. rewrite Hb.
      intros [?|[_ ?]]; [by eapply Hk | by eapply Hit]. }
    unfold bind. destruct (trigger rec t k type s1) as [[] s2|err s2|]; simpl in Hfin;
      [| |done]; inversion Hfin; subst; by exists s1. }
  destruct (Reflect_set (the_obj s t) k v) as [o'| |err] eqn:Hset; [| |by exists s].
  - apply Hgo; done.
  - apply Hgo; done.
Qed.

End Assign.

(** *** Re-running subscribed readers *)

Lemma NoDup_set_add e l : NoDup l → NoDup (set_add e l).
Proof.
  intros Hl. unfold set_add. case_bool_decide as He; [done|].
  apply NoDup_app. split_and!; [done | | apply NoDup_singleton].
  intros x Hx Hx'. apply list_elem_of_singleton in Hx' as ->. done.
Qed.

Lemma NoDup_add_all src dst : NoDup dst → NoDup (add_all src dst).
Proof.
  unfold add_all. revert dst. induction src as [|a src IH]; intros dst Hd; [done|].
  cbn [foldl]. by apply IH, NoDup_set_add.
Qed.

(** [effectsToRun] is a Set: it holds no effect twice. *)
Lemma NoDup_effectsToRun dm k type : NoDup (effectsToRun dm k type).
Proof.
  unfold effectsToRun. case_bool_decide; repeat apply NoDup_add_all; apply NoDup_nil_2.
Qed.

(** The run loop of [trigger] over effects that only read and have no
    scheduler: every one of them is run once, in the order of the Set. *)
Lemma forEach_readers L :
  ∀ s, plain_readers L s →
  ∃ n s',
    (∀ m, n ≤ m → forEach (run_triggered (exec m)) L s = Ok () s')
    ∧ rest s' = rest s ∧ bucket_of_others L s s'
    ∧ trace s' = trace s ++ (ERun <$> L).
Proof.
  induction L as [|e L IH]; intros s Hpl.
  - exists 0, s. split_and!; [done | done | done |]. by rewrite app_nil_r.
  - destruct (Hpl e (list_elem_of_here _ _)) as (r & Hr & Hro & Hsch).
    destruct (effectFn_readonly s e r Hr Hro)
      as (n1 & s1 & Hex1 & Hr1 & Htr1 & _ & _ & Heff1 & Hd1).
    destruct (IH s1) as (n2 & s2 & Hex2 & Hr2 & Hb2 & Htr2).
    { intros e' He'. destruct (decide (e' = e)) as [->|Hne].
      - eexists. rewrite Heff1, lookup_insert_eq. split_and!; [done | done | done].
      - rewrite Heff1, lookup_insert_ne by done.
        apply Hpl. by apply list_elem_of_further. }
    exists (n1 `max` n2), s2. split_and!.
    + intros m Hm. cbn [forEach]. unfold bind at 1. unfold run_triggered at 1.
      rewrite Hr, Hsch. unfold bind at 1. rewrite (Hex1 m) by lia.
      unfold ret. apply Hex2. lia.
    + by rewrite Hr2.
    + unfold bucket_of_others in *. intros x t k Hx.
      rewrite Hb2 by (intros Hin; apply Hx; by apply list_elem_of_further).
      rewrite Hd1. split; [intros [[? _]|[-> _]]; [done|] | intros ?; left; split; [done|]].
      * exfalso. apply Hx, list_elem_of_here.
      * intros [-> _]. apply Hx, list_elem_of_here.
    + rewrite Htr2, Htr1, <- app_assoc. done.
Qed.

(** [trigger] over subscribers that only read: each effect it selects is
    run exactly once, whether [trigger] then returns or throws. *)
Lemma trigger_readers t k type s :
  plain_readers (effectsToRun (default ∅ (bucket s !! t)) k type) s →
  ∃ n s',
    (∀ m, n ≤ m → final (trigger (exec m) t k type s) = Some s')
    ∧ trace s' = trace s ++ (ERun <$> effectsToRun (default ∅ (bucket s !! t)) k type).
Proof.
  intros Hpl. unfold trigger. destruct (bucket s !! t) as [dm|] eqn:Hb.
  - cbn [default from_option id] in *.
    destruct (forEach_readers _ s Hpl) as (n & s' & Hex & _ & _ & Htr).
    exists n, s'. split; [|done]. intros m Hm. unfold bind. rewrite (Hex m Hm).
    destruct (o_array (the_obj s' t) && bool_decide (k = KStr "length")); [|done].
    by case_bool_decide.
  - exists 0, s. split; [done|].
    unfold effectsToRun. cbn [default from_option id]. rewrite !lookup_empty.
    destruct (bool_decide _); by rewrite app_nil_r.
Qed.

(** Had the target stored itself under ["raw"], a write of a different
    value made outside every effect would re-run each subscribed reader
    exactly once. *)
Lemma proxy_assign_with_raw t k v s o type :
  heap s !! t = Some o → o_props o !! KStr "raw" = Some (VObj t) → k ≠ KStr "raw" →
  activeEffect s = None →
  mutation_type o k = inr type →
  (∀ err, Reflect_set o k v ≠ SetThrows err) →
  strict_neq (obj_get o k) v && (strict_eq (obj_get o k) (obj_get o k) || strict_eq v v) = true →
  plain_readers (effectsToRun (default ∅ (bucket s !! t)) k type) s →
  ∃ n s',
    (∀ m, n ≤ m → final (proxy_assign (exec m) t k v s) = Some s')
    ∧ trace s' = trace s ++ (ERun <$> effectsToRun (default ∅ (bucket s !! t)) k type)
    ∧ ∀ e, e ∈ deps_of s t k →
           runs_of e (ERun <$> effectsToRun (default ∅ (bucket s !! t)) k type) = 1.
Proof.
  intros Ho Hraw Hk Hact Hty Hset Hneq Hpl.
  assert (∀ s1, bucket s1 = bucket s → effects s1 = effects s → activeEffect s1 = None →
                trace s1 = trace s → obj_get (the_obj s1 t) "raw" = VObj t →
                o_array (the_obj s1 t) = o_array o →
    ∃ n s', (∀ m, n ≤ m →
               final ((let! raw := proxy_get t "raw" in
                       (if strict_eq (VObj t) raw
                        then if strict_neq (obj_get o k) v
                                && (strict_eq (obj_get o k) (obj_get o k) || strict_eq v v)
                             then trigger (exec m) t k type else ret ()
                        else ret ());;
                       ret (match Reflect_set o k v with SetDone _ => true | _ => false end)) s1)
               = Some s')
            ∧ trace s' = trace s
                         ++ (ERun <$> effectsToRun (default ∅ (bucket s !! t)) k type)) as Hgo.
  { intros s1 Hb He Ha Htr Hr Harr.
    destruct (trigger_readers t k type s1) as (n & s' & Hex & Htr').
    { rewrite Hb. intros e Hin. rewrite He. by apply Hpl. }
    exists n, s'. split; [|by rewrite Htr', Htr, Hb].
    intros m Hm. unfold bind at 1. rewrite proxy_get_eq, (track_inactive _ _ _ Ha).
    unfold get_result. fold (the_obj s1 t).
    replace (if o_array (the_obj s1 t) then is_instrumented "raw" else None)
      with (@None string) by (by destruct (o_array (the_obj s1 t))).
    rewrite Hr. unfold strict_eq at 1. rewrite bool_decide_true by done. rewrite Hneq.
    unfold bind. specialize (Hex m Hm).
    destruct (trigger (exec m) t k type s1) as [[] s2|err s2|]; simpl in Hex; [| |done];
      by inversion Hex. }
  assert (∃ n s', (∀ m, n ≤ m → final (proxy_assign (exec m) t k v s) = Some s')
                  ∧ trace s' = trace s
                      ++ (ERun <$> effectsToRun (default ∅ (bucket s !! t)) k type))
    as (n & s' & Hex & Htr).
  { unfold proxy_assign, proxy_set, the_obj, obj_at. rewrite Ho.
    cbn [default from_option id]. rewrite Hty.
    destruct (Reflect_set o k v) as [o'| |err] eqn:Hs; [| |by destruct (Hset err)].
    - destruct (Reflect_set_raw _ _ _ _ Hs Hk) as [Hr' Ha'].
      apply Hgo; try done; unfold the_obj, obj_at; cbn [heap set_heap];
        rewrite lookup_insert_eq; cbn [default from_option id]; [|done].
      rewrite Hr'. unfold obj_get. by rewrite Hraw.
    - apply Hgo; try done; unfold the_obj, obj_at; rewrite Ho;
        cbn [default from_option id]; [|done].
      unfold obj_get. by rewrite Hraw. }
  exists n, s'. split_and!; [done | done |].
  intros e He. unfold runs_of.
  assert (e ∈ effectsToRun (default ∅ (bucket s !! t)) k type) as Hin
    by (apply elem_of_effectsToRun; by left).
  pose proof (NoDup_effectsToRun (default ∅ (bucket s !! t)) k type) as Hnd.
  revert Hin Hnd. generalize (effectsToRun (default ∅ (bucket s !! t)) k type).
  induction l as [|a l IHl]; intros Hin Hnd; [by apply elem_of_nil in Hin|].
  apply NoDup_cons in Hnd as [Ha Hnd]. cbn [fmap list_fmap]. rewrite filter_cons.
  apply elem_of_cons in Hin as [->|Hin].
  - rewrite decide_True by done. cbn [length]. f_equal.
    apply length_zero_iff_nil, elem_of_nil_inv. intros ev Hev.
    apply list_elem_of_filter in Hev as [-> Hev].
    apply list_elem_of_fmap in Hev as (x & Hx & Hxin). inversion Hx; subst. done.
  - rewrite decide_False; [by apply IHl|].
    intros Heq. inversion Heq; subst. done.
Qed.

(** When the native method throws, the instrumented function ends with
    the flag as the native method left it, [false] unless it set it. *)
Lemma instrumented_mutator_throws origin s err s' :
  origin (set_shouldTrack false s) = Thrown err s' →
  instrumented_mutator origin s = Thrown err s'.
Proof. intros H. unfold instrumented_mutator, bind, modify. by rewrite H. Qed.

(** ** Branch-sensitive tracking *)

(** C5.  An effect whose computation only reads (and may choose what to
    read next from what it has read) is, after any run, a member of
    exactly the Sets of the keys read in that run: a key of a branch no
    longer taken loses the effect.  [trigger] for a key not read in the
    run does not select the effect, and when no other effect is
    subscribed a write to such a key runs nothing. *)
Theorem C5_branch_sensitive_tracking (s : State) (e : EffId) (r : EffectRec) :
  effects s !! e = Some r → ReadOnly (e_fn r) → indexed e s →
  ∃ n s',
    (∀ m, n ≤ m → effectFn (exec m) e s = Ok VUndef s')
    ∧ indexed e s'
    ∧ (∀ t k, e ∈ deps_of s' t k ↔ (t, k) ∈ reads (heap s) (e_fn r))
    ∧ (∀ t k type,
         (t, k) ∉ reads (heap s) (e_fn r) →
         (type ≠ SET → (t, ITERATE_KEY) ∉ reads (heap s) (e_fn r)) →
         e ∉ effectsToRun (default ∅ (bucket s' !! t)) k type)
    ∧ (only_subscriber e s → effectStack s = [] →
       ∀ rec t k v,
         (t, k) ∉ reads (heap s) (e_fn r) →
         (t, ITERATE_KEY) ∉ reads (heap s) (e_fn r) →
         ∃ s'', final (proxy_assign rec t k v s') = Some s'' ∧ trace s'' = trace s').
Proof.
  intros Hr Hro Hidx.
  destruct (effectFn_readonly s e r Hr Hro)
    as (n & s' & Hex & _ & _ & Hst & Hact & Heff & Hd).
  assert (∀ t k, e ∈ deps_of s' t k ↔ (t, k) ∈ reads (heap s) (e_fn r)) as Hmem.
  { intros t k. rewrite Hd. split; [|tauto].
    intros [[Hin Hnot]|[_ ?]]; [|done].
    destruct (Hidx t k Hin) as (r0 & Hr0 & Hin0).
    rewrite Hr in Hr0. inversion Hr0; subst. tauto. }
  exists n, s'. split_and!; [done| |done| |].
  - intros t k Hin. apply Hmem in Hin.
    eexists. split; [rewrite Heff; apply lookup_insert_eq | done].
  - intros t k type Hk Hit. rewrite elem_of_effectsToRun, !Hmem.
    intros [?|[Hty ?]]; [done | by apply Hit].
  - intros Honly Hstack rec t k v Hk Hit.
    assert (∀ k' x, (t, k') ∉ reads (heap s) (e_fn r) → x ∉ deps_of s' t k') as Hfree.
    { intros k' x Hk' Hx. assert (x = e) as ->; [|by apply Hmem in Hx].
      apply Hd in Hx as [[Hx _]|[? _]]; [by eapply Honly | done]. }
    apply proxy_assign_quiet.
    + by rewrite Hact, Hstack.
    + intros x. by apply Hfree.
    + intros x. by apply Hfree.
Qed.

(** [const e = effect(body); data.ok = false; e(); data.x = 5]: the
    second run moves the effect from the Set of ["x"] to the Set of ["y"],
    and the write to ["x"] runs nothing. *)
Example branch_switch_drops_old_key :
  ((λ s, (deps_of s 0 "ok", deps_of s 0 "x", deps_of s 0 "y", trace s))
     <$> final (exec 10 Branch.switch_branch (init Branch.objects)))
  = Some ([0], [], [0], [ERun 0; ERun 0]).
Proof. vm_compute. reflexivity. Qed.

Lemma C5_switched_indexed : indexed 0 Branch.switched.
Proof.
  intros t k Hin. exists Branch.record. split; [done|].
  unfold deps_of, bdeps in Hin. cbn [bucket Branch.switched set_bucket] in Hin.
  destruct (decide (t = 0)) as [->|Ht].
  - rewrite lookup_singleton_eq in Hin. cbn [mbind option_bind] in Hin.
    destruct (decide (k = KStr "ok")) as [->|Hok]; [apply list_elem_of_here|].
    rewrite lookup_insert_ne in Hin by done.
    destruct (decide (k = KStr "x")) as [->|Hx];
      [apply list_elem_of_further, list_elem_of_here|].
    rewrite lookup_singleton_ne in Hin by done. by apply elem_of_nil in Hin.
  - rewrite lookup_singleton_ne in Hin by done. by apply elem_of_nil in Hin.
Defined.

(** The effect of [Branch] ran with [ok] true and is in the Sets of
    ["ok"] and ["x"]; [ok] is now false.  The next run leaves it in the
    Sets of ["ok"] and ["y"] only. *)
Lemma C5_branch_sensitive_tracking_witness :
  (effects Branch.switched !! 0 = Some Branch.record
   ∧ ReadOnly (e_fn Branch.record)
   ∧ indexed 0 Branch.switched)
  ∧ ∃ n s',
      (∀ m, n ≤ m → effectFn (exec m) 0 Branch.switched = Ok VUndef s')
      ∧ (∀ t k, 0 ∈ deps_of s' t k ↔ (t, k) ∈ [(0, KStr "ok"); (0, KStr "y")])
      ∧ 0 ∉ effectsToRun (default ∅ (bucket s' !! 0)) "x" SET.
Proof.
  assert (ReadOnly (e_fn Branch.record)) as Hro.
  { apply RO_get. intros v. cbn beta. destruct (truthy v); apply RO_get; intros w; apply RO_ret. }
  split; [split_and!; [reflexivity | exact Hro | exact C5_switched_indexed]|].
  destruct (C5_branch_sensitive_tracking Branch.switched 0 Branch.record
              eq_refl Hro C5_switched_indexed)
    as (n & s' & Hex & _ & Hmem & Hsel & _).
  exists n, s'. split_and!; [exact Hex | exact Hmem |].
  apply Hsel.
  - vm_compute. intros H. repeat (apply elem_of_cons in H as [H|H]; [discriminate H|]).
    by apply elem_of_nil in H.
  - intros H. by contradiction H.
Defined.

(** ** Writes through the proxy *)

(** C1 (the code departs from the specification).  [effect(() => data.k)] leaves
    effect 0 subscribed to (obj, "k") with [obj.k] equal to 1.  The write
    [data.k = 2] stores 2 and runs no effect: the trace still holds the one
    run made by [effect]. *)
Theorem C1_differing_write_reruns_nothing :
  ((λ s, (deps_of s 0 "k", obj_get (the_obj s 0) "k", trace s)) <$> Counter.subscribed)
  = Some ([0], VNum 1, [ERun 0])
  ∧ ((λ s, (deps_of s 0 "k", obj_get (the_obj s 0) "k", trace s))
       <$> final (exec 6 Counter.subscribe_then_write (init Counter.objects)))
    = Some ([0], VNum 2, [ERun 0]).
Proof. split; vm_compute; reflexivity. Qed.

(** ** trigger and the active effect *)

(** C2 (the code departs from the specification).  Effect 0 is the
    active effect, is running and is subscribed to (obj, "k"); the
    [trigger] made by its own [delete data.k] starts its body again.  The
    whole of [effect(() => { data.k; delete data.k })] thus runs the body
    twice. *)
Theorem C2_trigger_runs_active_effect :
  activeEffect Counter.deleting = Some 0
  ∧ deps_of Counter.deleting 0 "k" = [0]
  ∧ trace Counter.deleting = [ERun 0]
  ∧ trace_of (trigger (exec 4) 0 "k" DELETE Counter.deleting) = Some [ERun 0; ERun 0]
  ∧ trace_of (exec 8 Counter.self_deleting_effect (init Counter.objects))
    = Some [ERun 0; ERun 0].
Proof. split_and!; vm_compute; reflexivity. Qed.

(** ** The effect handle *)

(** Whatever [fn] returns, the handle returns [undefined]. *)
Lemma effectFn_returns_undefined rec e s v s' :
  effectFn rec e s = Ok v s' → v = VUndef.
Proof.
  unfold effectFn. destruct (effects s !! e) as [r|]; [|done].
  unfold bind, modify, ret. destruct (rec _ _); [|done..].
  by inversion 1.
Qed.

(** C4 (the code departs from the specification).  The handle of
    [effect(() => 42, {lazy: true})] returns [undefined] when invoked, and
    so [computed(() => 42).value] is [undefined]. *)
Theorem C4_handle_returns_undefined :
  value_of (exec 3 Derived.call_handle (init ∅)) = Some VUndef
  ∧ value_of (exec 3 Derived.read_computed (init ∅)) = Some VUndef.
Proof. split; vm_compute; reflexivity. Qed.

(** ** Truncating an array *)

(** C6 (the code departs from the specification).  Effect 0 is subscribed to
    index 1 of [arr = [10, 11, 12]].
    - [arr.length = 0] through the proxy empties the array and runs
      nothing.
    - [trigger(arr, "length", "ADD")], the call the [set] trap makes for
      the key ["length"], runs nothing and throws a ReferenceError.
    - When [arr.raw] is [arr], so that the [set] trap reaches [trigger],
      [arr.length = 0] throws that ReferenceError and has run nothing. *)
Theorem C6_truncation_runs_no_index_effect :
  ((λ s, (deps_of s 0 "1", trace s)) <$> Arr.subscribed) = Some ([0], [ERun 0])
  ∧ ((λ s, (arr_length (the_obj s 0), obj_get (the_obj s 0) "1", trace s))
       <$> final (exec 6 Arr.subscribe_then_truncate (init Arr.objects)))
    = Some (0, VUndef, [ERun 0])
  ∧ (s ← Arr.subscribed;
     let r := trigger (exec 3) 0 "length" ADD s in
     Some (error_of r, trace_of r))
    = Some (Some ReferenceError, Some [ERun 0])
  ∧ (let r := exec 6 Arr.subscribe_then_truncate (init Arr.self_objects) in
     (error_of r, trace_of r))
    = (Some ReferenceError, Some [ERun 0]).
Proof. split_and!; vm_compute; reflexivity. Qed.

(** ** watch *)

(** C7 (the code departs from the specification).  Every call of [watch],
    whatever is passed after [cb], throws a ReferenceError: the callback
    has not been called, the getter has not been run and nothing is
    subscribed, so no later change reaches the callback either. *)
Theorem C7_watch_throws_before_callback
    (rec : Prog → M Val) (source : Prog) (cb : Val → Val → Prog) (extra : list Val)
    (s : State) :
  ∃ s', watch rec source cb extra s = Thrown ReferenceError s'
        ∧ trace s' = trace s ∧ bucket s' = bucket s.
Proof. eexists. split_and!; reflexivity. Qed.

(** ** The job queue *)

Lemma flush_finally_keeps_queue s : queue (flush_finally s) = queue s.
Proof. reflexivity. Qed.

(** C8 (the code departs from the specification).  A job is queued and
    the turn ends: the flush runs it once and finishes with [isFlushing]
    false, the job still in [queue] and 0 stored under [queue.clear].  In
    the next turn a second job is queued: the flush runs the first job
    again.  A flush whose job throws also ends with [isFlushing] false and
    the job still in [queue]. *)
Theorem C8_flush_leaves_queue :
  ((λ s, (queue s, isFlushing s, queue_clear s, trace s))
     <$> final (turn 4 Jobs.queue_new_job (init ∅)))
  = Some ([0], false, Some (VNum 0), [ERun 0])
  ∧ (s ← final (turn 4 Jobs.queue_new_job (init ∅));
     (λ s', (queue s', trace s')) <$> final (turn 4 Jobs.queue_new_job s))
    = Some ([0; 1], [ERun 0; ERun 0; ERun 1])
  ∧ (s ← final (exec 4 Jobs.queue_throwing_job (init ∅));
     let r := flush (exec 4) 4 s in
     (λ s', (error_of r, queue s', isFlushing s')) <$> final r)
    = Some (Some (UserError (VStr "boom")), [0], false).
Proof. split_and!; vm_compute; reflexivity. Qed.

(** ** Array instrumentations *)

(** C9 (the code departs from the specification).  While effect 0 is active the
    instrumented [push] records the edge (arr, "length") for it, although
    [shouldTrack] is false while the native method runs.  On a frozen array
    the native method throws and [shouldTrack] stays false. *)
Theorem C9_push_records_dependency_and_leaks_flag :
  deps_of Arr.pushing 0 "length" = []
  ∧ ((λ s, (deps_of s 0 "length", shouldTrack s))
       <$> final (instrumented_mutator (Array_push (exec 3) 0 [VNum 5]) Arr.pushing))
    = Some ([0], true)
  ∧ ((λ s, deps_of s 0 "length") <$> final (exec 6 Arr.push_in_effect (init Arr.objects)))
    = Some [0]
  ∧ (let r := exec 4 Arr.push_top (init Arr.frozen_objects) in
     (error_of r, shouldTrack <$> final r))
    = (Some TypeError, Some false).
Proof. split_and!; vm_compute; reflexivity. Qed.

(** ** proxyRefs *)

(** C10.  Through [proxyRefs(target)], reading a key whose current value
    is [null] or [undefined] throws a TypeError (the trap probes
    [value._v_isRef]) instead of returning the value; writing to such a key,
    a brand-new key included, throws the same way and stores nothing. *)
Theorem C10_proxyRefs_nullish_throws (s : State) (target : Val) (key : Key) :
  is_object target = true →
  current_value s target key = VUndef ∨ current_value s target key = VNull →
  (∃ s', proxyRefs_get target key s = Thrown TypeError s' ∧ heap s' = heap s)
  ∧ (∀ rec newValue,
       ∃ s', proxyRefs_set rec target key newValue s = Thrown TypeError s'
             ∧ heap s' = heap s).
Proof.
  intros Hobj Hv. destruct target as [| | | | | |l|l|]; try discriminate Hobj;
    cbn [current_value] in Hv.
  - split; [|intros rec newValue]; exists s;
      unfold proxyRefs_get, proxyRefs_set, bind; cbn [is_object js_get];
      (split; [|done]); by destruct Hv as [-> | ->].
  - split; [|intros rec newValue]; exists (track l key s);
      unfold proxyRefs_get, proxyRefs_set, bind; cbn [is_object js_get];
      rewrite proxy_get_eq; (split; [|apply track_heap]); by destruct Hv as [-> | ->].
Qed.

(** [setupState = {count: null}]: reading [count], writing [count] and
    writing the new key [total] through [proxyRefs(setupState)] all throw. *)
Lemma C10_proxyRefs_nullish_throws_witness :
  (is_object (VObj 0) = true
   ∧ current_value (init Refs.objects) (VObj 0) "count" = VNull
   ∧ current_value (init Refs.objects) (VObj 0) "total" = VUndef)
  ∧ error_of (proxyRefs_get (VObj 0) "count" (init Refs.objects)) = Some TypeError
  ∧ error_of (proxyRefs_set (exec 1) (VObj 0) "count" (VNum 1) (init Refs.objects))
    = Some TypeError
  ∧ error_of (proxyRefs_set (exec 1) (VObj 0) "total" (VNum 1) (init Refs.objects))
    = Some TypeError.
Proof.
  split; [split_and!; reflexivity|].
  destruct (C10_proxyRefs_nullish_throws (init Refs.objects) (VObj 0) "count"
              eq_refl (or_intror eq_refl)) as [(s1 & H1 & _) H2].
  destruct (H2 (exec 1) (VNum 1)) as (s2 & H2' & _).
  destruct (C10_proxyRefs_nullish_throws (init Refs.objects) (VObj 0) "total"
              eq_refl (or_introl eq_refl)) as [_ H3].
  destruct (H3 (exec 1) (VNum 1)) as (s3 & H3' & _).
  rewrite H1, H2', H3'. split_and!; reflexivity.
Defined.

(** ** computed *)




(** ** An effect that triggers itself *)

Lemma track_effect_kept t k s e fn lz sc :
  (∃ ds, effects s !! e = Some (mkEffect fn lz sc ds)) →
  ∃ ds, effects (track t k s) !! e = Some (mkEffect fn lz sc ds).
Proof.
  intros [ds Hds]. unfold track. destruct (activeEffect s) as [a|]; [|by exists ds].
  cbn [effects set_effects set_bucket]. destruct (decide (a = e)) as [->|Hne].
  - rewrite lookup_alter_eq, Hds. by eexists.
  - rewrite lookup_alter_ne by done. by exists ds.
Qed.

(** A write of an ordinary key to an ordinary object that has no key
    ["raw"] stores the value and returns. *)
Lemma proxy_assign_plain rec t k v s o :
  heap s !! t = Some o → o_array o = false → o_frozen o = false →
  o_props o !! KStr "raw" = None → k ≠ KStr "raw" →
  proxy_assign rec t k v s
  = Ok true (track t "raw"
               (set_heap (<[t := mkObj false false (<[k := v]> (o_props o))]> (heap s)) s)).
Proof.
  intros Ho Harr Hfr Hraw Hk. unfold proxy_assign, proxy_set, the_obj, obj_at.
  rewrite Ho. cbn [default from_option id]. unfold mutation_type, Reflect_set.
  rewrite Harr, Hfr. unfold bind. rewrite proxy_get_eq.
  unfold get_result, obj_at. cbn [heap set_heap]. rewrite lookup_insert_eq.
  cbn [default from_option id o_array]. unfold obj_get. cbn [o_props].
  rewrite lookup_insert_ne by done. rewrite Hraw. cbn [default from_option id].
  by destruct (hasOwn o k).
Qed.

(** [trigger] does not return when the first effect it selects does not. *)
Lemma trigger_head_diverges rec t k type s e l :
  effectsToRun (default ∅ (bucket s !! t)) k type = e :: l →
  run_triggered rec e s = OutOfFuel →
  trigger rec t k type s = OutOfFuel.
Proof.
  intros Hsel Hrun. unfold trigger. destruct (bucket s !! t) as [dm|].
  2:{ exfalso. unfold effectsToRun in Hsel. cbn [default from_option id] in Hsel.
      rewrite !lookup_empty in Hsel. by destruct (bool_decide _). }
  cbn [default from_option id] in Hsel. rewrite Hsel. cbn [forEach].
  unfold bind at 1 2. by rewrite Hrun.
Qed.

(** The body [() => { data.k; data.k = 1; delete data.k }] run as effect
    0 never returns, whatever the fuel: the [delete] triggers the effect
    that is running. *)
Lemma self_feeding_diverges n :
  ∀ s, Counter.self_feeding s → effectFn (exec n) 0 s = OutOfFuel.
Proof.
  induction n as [n IH] using lt_wf_ind. intros s ((ds & Heff) & (o & Ho & Harr & Hfr & Hraw) & Honly).
  unfold effectFn. rewrite Heff. unfold bind at 1 2 3, modify. cbn [e_fn].
  set (s3 := log (ERun 0) (set_active (Some 0) (effectStack (cleanup 0 s) ++ [0]) (cleanup 0 s))).
  assert (heap s3 = heap s) as Hh3.
  { change (heap s3) with (heap (cleanup 0 s)). destruct (cleanup_rest 0 s) as [Hc _].
    by injection Hc. }
  assert (∃ ds, effects s3 !! 0 = Some (mkEffect Counter.read_write_delete false None ds))
    as Heff3.
  { change (effects s3) with (effects (cleanup 0 s)). rewrite (cleanup_effects _ _ _ Heff).
    rewrite lookup_insert_eq. by eexists. }
  assert (only_subscriber 0 s3) as Honly3.
  { intros x t k. change (deps_of s3 t k) with (deps_of (cleanup 0 s) t k).
    rewrite (cleanup_deps _ _ _ _ _ _ Heff). intros [Hx _]. by eapply Honly. }
  unfold bind at 1.
  destruct n as [|n1]; [done|]. unfold Counter.read_write_delete at 1.
  cbn [exec step]. unfold bind at 1. rewrite proxy_get_eq.
  set (s4 := track 0 "k" s3).
  assert (heap s4 = heap s) as Hh4 by (unfold s4; by rewrite track_heap).
  assert (activeEffect s4 = Some 0) as Ha4
    by (unfold s4; by destruct (track_rest 0 "k" s3) as (_ & _ & -> & _)).
  destruct n1 as [|n2]; [done|]. cbn [exec step]. unfold bind at 1.
  rewrite (proxy_assign_plain _ _ _ _ _ o) by (rewrite ?Hh4; done).
  set (o1 := mkObj false false (<[KStr "k" := VNum 1]> (o_props o))).
  set (s6 := track 0 "raw" (set_heap (<[0 := o1]> (heap s4)) s4)).
  destruct n2 as [|n3]; [done|]. cbn [exec step]. unfold bind at 1.
  unfold proxy_deleteProperty, the_obj, obj_at.
  assert (heap s6 !! 0 = Some o1) as Hh6.
  { unfold s6. rewrite track_heap. cbn [heap set_heap]. apply lookup_insert_eq. }
  rewrite Hh6. cbn [default from_option id].
  assert (hasOwn o1 "k" = true) as ->.
  { unfold hasOwn, o1. cbn [o_props]. rewrite lookup_insert_eq. by apply bool_decide_true. }
  unfold Reflect_deleteProperty. cbn [o_frozen o_array o1 andb o_props].
  set (s7 := set_heap _ s6). unfold bind at 1.
  assert (∀ x t k, x ∈ deps_of s7 t k → x = 0) as Honly7.
  { intros x t k. change (deps_of s7 t k) with (deps_of s6 t k). unfold s6.
    rewrite (track_deps _ _ _ 0) by exact Ha4.
    change (deps_of (set_heap ?h s4) t k) with (deps_of s4 t k). unfold s4.
    rewrite (track_deps _ _ _ 0) by done.
    intros [[Hx|[-> _]]|[-> _]]; [by eapply Honly3 | done | done]. }
  assert (0 ∈ deps_of s7 0 "k") as Hin7.
  { change (deps_of s7 0 "k") with (deps_of s6 0 "k"). unfold s6.
    rewrite (track_deps _ _ _ 0) by exact Ha4.
    left. change (deps_of (set_heap ?h s4) 0 "k") with (deps_of s4 0 "k"). unfold s4.
    rewrite (track_deps _ _ _ 0) by done. tauto. }
  assert (∃ ds, effects s7 !! 0 = Some (mkEffect Counter.read_write_delete false None ds))
    as [ds7 Heff7].
  { change (effects s7) with (effects s6). unfold s6. apply track_effect_kept.
    change (effects (set_heap ?h s4)) with (effects s4). unfold s4.
    by apply track_effect_kept. }
  destruct (effectsToRun (default ∅ (bucket s7 !! 0)) "k" DELETE) as [|x l] eqn:Hsel.
  { exfalso. assert (0 ∈ effectsToRun (default ∅ (bucket s7 !! 0)) "k" DELETE) as H0.
    { apply elem_of_effectsToRun. by left. }
    rewrite Hsel in H0. by apply elem_of_nil in H0. }
  assert (x = 0) as ->.
  { assert (x ∈ effectsToRun (default ∅ (bucket s7 !! 0)) "k" DELETE) as Hx
      by (rewrite Hsel; apply list_elem_of_here).
    apply elem_of_effectsToRun in Hx as [Hx|[_ Hx]]; by eapply Honly7. }
  rewrite (trigger_head_diverges _ _ _ _ _ _ _ Hsel); [done|].
  unfold run_triggered. rewrite Heff7. cbn [e_sched]. unfold bind.
  rewrite IH; [done | lia |].
  split_and!; [by eexists | | done].
  exists (mkObj false false (delete (KStr "k") (<[KStr "k" := VNum 1]> (o_props o)))).
  split_and!; [apply lookup_insert_eq | done | done |].
  cbn [o_props]. rewrite lookup_delete_ne by done. by rewrite lookup_insert_ne.
Qed.

(** [effect(() => { data.k; data.k = 1; delete data.k })] does not
    return for any amount of fuel. *)
Lemma self_trigger_never_returns n :
  exec n Counter.self_feeding_effect (init Counter.objects) = OutOfFuel.
Proof.
  destruct n as [|n]; [done|]. unfold Counter.self_feeding_effect.
  cbn [exec step]. unfold bind at 1. unfold effect. cbn [next_id init].
  unfold bind. rewrite self_feeding_diverges; [done|].
  split_and!.
  - exists []. cbn [effects set_next_id set_effects]. apply lookup_insert_eq.
  - eexists. split_and!; [apply lookup_singleton_eq | done | done | done].
  - intros x t k Hx. by apply elem_of_nil in Hx.
Qed.

(** * The rest of the library *)

(** ** The state stays well formed *)

Lemma wf_init h : wf (init h).
Proof.
  unfold wf, init, indexed, deps_of, bdeps. cbn.
  split_and!; try done.
  - intros e He. by apply elem_of_nil in He.
  - intros e t k He. rewrite lookup_empty in He. by apply elem_of_nil in He.
  - intros e [r Hr]. by rewrite lookup_empty in Hr.
  - intros t k. rewrite lookup_empty. apply NoDup_nil_2.
  - apply NoDup_nil_2.
Qed.

Lemma NoDup_set_delete e l : NoDup l → NoDup (set_delete e l).
Proof. intros Hl. unfold set_delete. by apply NoDup_filter. Qed.

Lemma wf_track t k s : wf s → wf (track t k s).
Proof.
  intros Hwf. pose proof Hwf as (H1 & H2 & H3 & H4 & H5 & H6).
  destruct (track_rest t k s) as (Hr & _ & Ha & Hst).
  destruct (activeEffect s) as [a|] eqn:Hact; [|by rewrite (track_inactive _ _ _ Hact)].
  assert (is_Some (effects s !! a)) as [ra Hra].
  { apply H2. destruct (effectStack s) as [|x l] using rev_ind; [done|].
    rewrite last_snoc in H1. inversion H1; subst. apply elem_of_app. right.
    apply list_elem_of_here. }
  assert (∀ e r, effects s !! e = Some r →
                 ∃ r', effects (track t k s) !! e = Some r'
                       ∧ ∀ d, d ∈ e_deps r → d ∈ e_deps r') as Hkeep.
  { intros e r Hr0. rewrite (track_effects _ _ _ a) by done.
    destruct (decide (a = e)) as [->|Hne].
    - rewrite lookup_alter_eq, Hr0. eexists. split; [done|].
      intros d Hd. cbn. apply elem_of_app. by left.
    - rewrite lookup_alter_ne by done. by exists r. }
  assert (next_id (track t k s) = next_id s) as Hn by (by injection Hr).
  assert (queue (track t k s) = queue s) as Hq by (by injection Hr).
  unfold wf. rewrite Ha, Hst, Hn, Hq. split_and!.
  - done.
  - intros e He. destruct (H2 e He) as [r Hr0].
    destruct (Hkeep e r Hr0) as (r' & Hr' & _). by exists r'.
  - intros e t' k' Hin. apply (track_deps _ _ _ a) in Hin; [|done].
    destruct Hin as [Hin|(-> & -> & ->)].
    + destruct (H3 e t' k' Hin) as (r & Hr0 & Hd).
      destruct (Hkeep e r Hr0) as (r' & Hr' & Hsub). exists r'. split; [done|]. by apply Hsub.
    + rewrite (track_effects _ _ _ a) by done. rewrite lookup_alter_eq, Hra.
      eexists. split; [done|]. cbn. apply elem_of_app. right. apply list_elem_of_here.
  - intros e [r Hr0]. apply H4. rewrite (track_effects _ _ _ a) in Hr0 by done.
    destruct (decide (a = e)) as [->|Hne].
    + by exists ra.
    + rewrite lookup_alter_ne in Hr0 by done. by exists r.
  - intros t' k'. unfold track, deps_of. rewrite Hact. cbn [bucket set_effects set_bucket].
    assert (default [] (default ∅ (bucket s !! t) !! k) = bdeps (bucket s) t k) as ->.
    { unfold bdeps. destruct (bucket s !! t); simpl; [done|]. by rewrite lookup_empty. }
    rewrite bdeps_insert. case_decide; [apply NoDup_set_add|]; apply H5.
  - done.
Qed.

Lemma wf_cleanup e s : wf s → wf (cleanup e s).
Proof.
  intros Hwf. pose proof Hwf as (H1 & H2 & H3 & H4 & H5 & H6).
  destruct (effects s !! e) as [r|] eqn:Hr; [|unfold cleanup; by rewrite Hr].
  destruct (cleanup_rest e s) as (Hrest & _ & Ha & Hst).
  assert (next_id (cleanup e s) = next_id s) as Hn by (by injection Hrest).
  assert (queue (cleanup e s) = queue s) as Hq by (by injection Hrest).
  unfold wf. rewrite Ha, Hst, Hn, Hq, (cleanup_effects _ _ _ Hr). split_and!; [done| | | | |done].
  - intros x Hx. destruct (decide (e = x)) as [->|Hne].
    + rewrite lookup_insert_eq. by eexists.
    + rewrite lookup_insert_ne by done. by apply H2.
  - intros x t k Hin. apply (cleanup_deps _ _ _ _ _ _ Hr) in Hin as [Hin Hnot].
    destruct (H3 x t k Hin) as (r0 & Hr0 & Hd).
    destruct (decide (e = x)) as [->|Hne].
    + rewrite Hr in Hr0. inversion Hr0; subst. tauto.
    + rewrite (cleanup_effects _ _ _ Hr), lookup_insert_ne by done. by exists r0.
  - intros x [r0 Hr0]. apply H4. destruct (decide (e = x)) as [->|Hne].
    + by exists r.
    + rewrite lookup_insert_ne in Hr0 by done. by exists r0.
  - intros t k. unfold cleanup, deps_of. rewrite Hr. cbn [bucket set_effects set_bucket].
    rewrite bdeps_cleanup. case_decide; [apply NoDup_set_delete|]; apply H5.
Qed.

Lemma wf_push e s :
  wf s → is_Some (effects s !! e) → wf (set_active (Some e) (effectStack s ++ [e]) s).
Proof.
  intros (H1 & H2 & H3 & H4 & H5 & H6) He. unfold wf.
  cbn [activeEffect effectStack effects next_id queue set_active].
  split_and!; try done.
  - by rewrite last_snoc.
  - intros x Hx. apply elem_of_app in Hx as [Hx|Hx]; [by apply H2|].
    by apply list_elem_of_singleton in Hx as ->.
Qed.

Lemma elem_of_removelast {A} (x : A) (l : list A) : x ∈ removelast l → x ∈ l.
Proof.
  destruct l as [|a l] using rev_ind; [done|].
  rewrite removelast_last. intros Hx. apply elem_of_app. by left.
Qed.

Lemma wf_pop s :
  wf s → wf (let st := removelast (effectStack s) in set_active (last st) st s).
Proof.
  intros (H1 & H2 & H3 & H4 & H5 & H6). unfold wf.
  cbn [activeEffect effectStack effects next_id queue set_active].
  split_and!; try done.
  intros x Hx. by apply H2, elem_of_removelast.
Qed.

Lemma wf_next_id s : wf s → wf (set_next_id (S (next_id s)) s).
Proof.
  intros (H1 & H2 & H3 & H4 & H5 & H6). unfold wf.
  cbn [activeEffect effectStack effects next_id queue set_next_id].
  split_and!; try done. intros x Hx. specialize (H4 x Hx). lia.
Qed.

Lemma wf_new_effect fn lz sch s :
  wf s →
  wf (set_next_id (S (next_id s))
        (set_effects (<[next_id s := mkEffect fn lz sch []]> (effects s)) s)).
Proof.
  intros (H1 & H2 & H3 & H4 & H5 & H6). unfold wf.
  cbn [activeEffect effectStack effects next_id queue set_next_id set_effects].
  assert (∀ x, is_Some (effects s !! x) → x ≠ next_id s) as Hfresh.
  { intros x Hx. specialize (H4 x Hx). lia. }
  split_and!; try done.
  - intros x Hx. rewrite lookup_insert_ne; [by apply H2|].
    intros <-. by apply (Hfresh (next_id s) (H2 _ Hx)).
  - intros x t k Hin. destruct (H3 x t k Hin) as (r & Hr & Hd).
    exists r. split; [|done].
    cbn [effects set_next_id set_effects]. rewrite lookup_insert_ne; [done|].
    intros <-. by apply (Hfresh (next_id s) (ex_intro _ r Hr)).
  - intros x [r Hr]. destruct (decide (next_id s = x)) as [<-|Hne]; [lia|].
    rewrite lookup_insert_ne in Hr by done. assert (x < next_id s); [|lia].
    apply H4. by exists r.
Qed.

Lemma wf_set_jobs q c f m s : wf s → NoDup q → wf (set_jobs q c f m s).
Proof. intros (H1 & H2 & H3 & H4 & H5 & H6) Hq. by split_and!. Qed.

(** *** Composing computations *)

Lemma post_stack {A} s s1 (r : Res A) :
  effectStack s1 = effectStack s → post s1 r → post s r.
Proof. intros Heq. unfold post. by rewrite Heq. Qed.

Lemma good_ret {A} (a : A) : good (ret a).
Proof. intros s Hwf. by split. Qed.

Lemma good_throw {A} (e : Err) : good (@throw A e).
Proof. intros s Hwf. by split. Qed.

Lemma good_modify (f : State → State) :
  (∀ s, wf s → wf (f s) ∧ effectStack (f s) = effectStack s) → good (modify f).
Proof. intros Hf s Hwf. by apply Hf. Qed.

Lemma good_bind {A B} (m : M A) (k : A → M B) :
  good m → (∀ a, good (k a)) → good (bind m k).
Proof.
  intros Hm Hk s Hwf. unfold bind. specialize (Hm s Hwf).
  destruct (m s) as [a s1|err s1|]; [|done..].
  destruct Hm as [Hwf1 Hst]. eapply post_stack; [done|]. by apply Hk.
Qed.

Lemma good_app {A} (m : M A) s : good m → wf s → post s (m s).
Proof. intros Hm. apply Hm. Qed.

Lemma good_forEach {A} (f : A → M unit) (l : list A) :
  (∀ x, good (f x)) → good (forEach f l).
Proof.
  intros Hf. induction l as [|x l IH]; cbn [forEach]; [apply good_ret|].
  apply good_bind; [apply Hf | by intros _].
Qed.

Create HintDb good.

Ltac solve_good :=
  repeat first
    [ solve [auto with good]
    | apply good_ret | apply good_throw
    | apply good_bind; [|intros ?]
    | apply good_forEach; intros ?
    | match goal with
      | |- good (if ?b then _ else _) => destruct b
      | |- good (match ?x with _ => _ end) => destruct x
      end ].

Lemma good_upd f :
  (∀ s, wf s → wf (f s)) → (∀ s, effectStack (f s) = effectStack s) → good (modify f).
Proof. intros H1 H2. apply good_modify. intros s Hwf. split; [by apply H1 | apply H2]. Qed.

Lemma good_queueJob j : good (queueJob j).
Proof.
  apply good_modify. intros s Hwf. split; [|by destruct (isFlushing s)].
  destruct (isFlushing s); apply wf_set_jobs; try done;
    apply NoDup_set_add, Hwf.
Qed.
#[export] Hint Resolve good_queueJob : good.

Lemma good_proxy_get t k : good (proxy_get t k).
Proof.
  intros s Hwf. rewrite proxy_get_eq. split; [by apply wf_track|].
  by destruct (track_rest t k s) as (_ & _ & _ & ->).
Qed.
#[export] Hint Resolve good_proxy_get : good.

Lemma good_proxy_has t k : good (proxy_has t k).
Proof.
  intros s Hwf. split; [by apply wf_track|].
  by destruct (track_rest t k s) as (_ & _ & _ & ->).
Qed.

Lemma good_proxy_ownKeys t : good (proxy_ownKeys t).
Proof.
  intros s Hwf. split; [by apply wf_track|].
  by destruct (track_rest t ITERATE_KEY s) as (_ & _ & _ & ->).
Qed.
#[export] Hint Resolve good_proxy_has good_proxy_ownKeys : good.

Lemma good_raw_set l k x : good (raw_set l k x).
Proof.
  intros s Hwf. unfold raw_set. destruct (Reflect_set (the_obj s l) k x); by split.
Qed.

Lemma good_js_get v k : good (js_get v k).
Proof.
  destruct v; cbn [js_get]; solve_good. intros s Hwf. by split.
Qed.
#[export] Hint Resolve good_raw_set good_js_get : good.

Lemma good_proxyRefs_get target k : good (proxyRefs_get target k).
Proof. unfold proxyRefs_get. solve_good. Qed.
#[export] Hint Resolve good_proxyRefs_get : good.

Section Good.
Variable rec : Prog → M Val.
Hypothesis Hrec : ∀ p, good (rec p).

Lemma good_effectFn e : good (effectFn rec e).
Proof.
  intros s Hwf. unfold effectFn. destruct (effects s !! e) as [r|] eqn:Hr; [|by split].
  unfold bind at 1 2 3, modify.
  set (s3 := log (ERun e) (set_active (Some e) (effectStack (cleanup e s) ++ [e]) (cleanup e s))).
  assert (effectStack s3 = effectStack s ++ [e]) as Hst3.
  { change (effectStack s3) with (effectStack (cleanup e s) ++ [e]).
    by destruct (cleanup_rest e s) as (_ & _ & _ & ->). }
  assert (wf s3) as Hwf3.
  { change (wf (set_active (Some e) (effectStack (cleanup e s) ++ [e]) (cleanup e s))).
    apply wf_push; [by apply wf_cleanup|].
    rewrite (cleanup_effects _ _ _ Hr), lookup_insert_eq. by eexists. }
  unfold bind. pose proof (Hrec (e_fn r) s3 Hwf3) as Hp.
  destruct (rec (e_fn r) s3) as [v s4|err s4|]; [| |done].
  - destruct Hp as [Hwf4 Hst4]. unfold ret. split; [by apply wf_pop|].
    cbn [effectStack set_active]. rewrite Hst4, Hst3. apply removelast_last.
  - destruct Hp as [Hwf4 Hst4]. split; [done|].
    rewrite Hst3 in Hst4. by eapply prefix_app_l.
Qed.
Hint Resolve good_effectFn : good.

Lemma good_effect fn lz sch : good (effect rec fn lz sch).
Proof.
  intros s Hwf. unfold effect.
  pose proof (wf_new_effect fn lz sch s Hwf) as Hwf1.
  destruct lz; [by split|].
  eapply post_stack; [|apply good_app; [solve_good | exact Hwf1]]. done.
Qed.
Hint Resolve good_effect : good.

Lemma good_flush_loop n : ∀ i, good (flush_loop rec n i).
Proof.
  induction n as [|n IH]; intros i s Hwf; cbn [flush_loop]; [done|].
  destruct (queue s !! i); [|by split].
  apply good_app; [solve_good | done].
Qed.

Lemma wf_flush_finally s : wf s → wf (flush_finally s).
Proof. intros Hwf. apply wf_set_jobs; [done | apply Hwf]. Qed.

Lemma good_flush n : good (flush rec n).
Proof.
  intros s Hwf. unfold flush. pose proof (good_flush_loop n 0 s Hwf) as Hp.
  destruct (flush_loop rec n 0 s) as [[] s1|err s1|]; [| |done];
    destruct Hp as [Hwf1 Hst]; (split; [by apply wf_flush_finally | done]).
Qed.

Lemma good_watch_job w : good (watch_job rec w).
Proof.
  intros s Hwf. unfold watch_job. destruct (watches s !! w) as [r|]; [|by split].
  apply good_app; [|done]. solve_good.
  - by apply good_upd.
  - intros s1 Hwf1. cbn zeta.
    eapply (post_stack _ (log _ s1)); [done|]. apply good_app; [solve_good | exact Hwf1].
  - by apply good_upd.
Qed.
Hint Resolve good_watch_job : good.

Lemma good_call_scheduler sch e : good (call_scheduler rec sch e).
Proof. destruct sch; cbn [call_scheduler]; solve_good. by apply good_upd. Qed.
Hint Resolve good_call_scheduler : good.

Lemma good_run_triggered e : good (run_triggered rec e).
Proof.
  intros s Hwf. unfold run_triggered. destruct (effects s !! e) as [r|]; [|by split].
  destruct (e_sched r) as [sch|].
  - eapply (post_stack _ (log _ s)); [done|]. apply good_app; [solve_good | exact Hwf].
  - apply good_app; [solve_good | done].
Qed.
Hint Resolve good_run_triggered : good.

Lemma good_trigger t k type : good (trigger rec t k type).
Proof.
  intros s Hwf. unfold trigger. destruct (bucket s !! t) as [dm|]; [|by split].
  apply good_app; [|done]. solve_good.
  intros s1 Hwf1. destruct (_ && _); [|by split]. case_bool_decide; by split.
Qed.
Hint Resolve good_trigger : good.

Lemma good_proxy_deleteProperty t k : good (proxy_deleteProperty rec t k).
Proof.
  intros s Hwf. unfold proxy_deleteProperty.
  destruct (Reflect_deleteProperty (the_obj s t) k) as [o'|]; [|by split].
  destruct (hasOwn (the_obj s t) k); [|by split].
  eapply (post_stack _ (set_heap _ s)); [done|]. apply good_app; [solve_good | exact Hwf].
Qed.
Hint Resolve good_proxy_deleteProperty : good.

Lemma good_proxy_set (receiver_raw : M Val) t k v :
  good receiver_raw → good (proxy_set rec receiver_raw t k v).
Proof.
  intros Hraw s Hwf. unfold proxy_set.
  destruct (mutation_type (the_obj s t) k) as [err|type]; [by split|].
  destruct (Reflect_set (the_obj s t) k v) as [o'| |err]; [| |by split].
  - eapply (post_stack _ (set_heap _ s)); [done|]. apply good_app; [solve_good | exact Hwf].
  - apply good_app; [solve_good | done].
Qed.

Lemma good_proxy_assign t k v : good (proxy_assign rec t k v).
Proof. apply good_proxy_set. apply good_proxy_get. Qed.
Hint Resolve good_proxy_assign : good.

Lemma good_Set_or_throw t k v : good (Set_or_throw rec t k v).
Proof. unfold Set_or_throw. solve_good. Qed.
Hint Resolve good_Set_or_throw : good.

Lemma good_push_items t args : ∀ len, good (push_items rec t len args).
Proof. induction args as [|a args IH]; intros len; cbn [push_items]; solve_good. Qed.
Hint Resolve good_push_items : good.

Lemma good_Array_push t args : good (Array_push rec t args).
Proof. unfold Array_push. solve_good. Qed.

Lemma good_Array_pop t : good (Array_pop rec t).
Proof. unfold Array_pop. solve_good. Qed.
Hint Resolve good_Array_push good_Array_pop : good.

(** [shouldTrack] is no part of well-formedness. *)
Lemma good_instrumented_mutator origin : good origin → good (instrumented_mutator origin).
Proof. intros Ho. unfold instrumented_mutator. solve_good; by apply good_upd. Qed.

Lemma good_call_mutator t m args : good (call_mutator rec t m args).
Proof.
  unfold call_mutator. solve_good; by apply good_upd.
Qed.
Hint Resolve good_call_mutator : good.

Lemma good_computed getter : good (computed rec getter).
Proof.
  intros s Hwf. unfold computed.
  eapply (post_stack _ (set_next_id _ s)); [done|].
  apply good_app; [|by apply wf_next_id]. solve_good. by apply good_upd.
Qed.

Lemma good_computed_value c : good (computed_value rec c).
Proof.
  intros s Hwf. unfold computed_value. destruct (comps s !! c) as [r|]; [|by split].
  destruct (c_dirty r); [|by split].
  apply good_app; [|done]. solve_good. by apply good_upd.
Qed.

Lemma good_watch source cb extra : good (watch rec source cb extra).
Proof.
  intros s Hwf. unfold watch.
  eapply (post_stack _ (set_next_id _ s)); [done|].
  apply good_app; [|by apply wf_next_id]. solve_good. by apply good_upd.
Qed.
Hint Resolve good_computed good_computed_value good_watch : good.

Lemma good_js_set v k x : good (js_set rec v k x).
Proof. destruct v; cbn [js_set]; solve_good. Qed.
Hint Resolve good_js_set : good.

Lemma good_proxyRefs_set target k v : good (proxyRefs_set rec target k v).
Proof.
  unfold proxyRefs_set. solve_good. apply good_proxy_set. apply good_proxyRefs_get.
Qed.
Hint Resolve good_proxyRefs_set : good.

Lemma good_step p : good (step rec p).
Proof. destruct p; cbn [step]; solve_good. Qed.

End Good.

Lemma good_exec n : ∀ p, good (exec n p).
Proof.
  induction n as [|n IH]; intros p; [by intros s Hwf|].
  cbn [exec]. by apply good_step.
Qed.

Lemma wf_drain n : ∀ s s', wf s → final (drain n s) = Some s' → wf s'.
Proof.
  induction n as [|n IH]; intros s s' Hwf Hfin; [done|]. cbn [drain] in Hfin.
  destruct (microtasks s) as [|m]; [simpl in Hfin; by simplify_eq|].
  assert (wf (set_jobs (queue s) (queue_clear s) (isFlushing s) m s)) as Hwf1
    by (apply wf_set_jobs; [done | apply Hwf]).
  pose proof (good_flush (exec n) (good_exec n) n _ Hwf1) as Hp.
  destruct (flush (exec n) n _) as [[] s1|err s1|]; [| |done];
    destruct Hp as [Hwf2 _]; by eapply IH.
Qed.

(** X1.  Whatever user code runs from a well-formed state, and whether
    it returns or throws, the state it stops in is well formed, also
    after the microtasks of the turn: [activeEffect] is the top of
    [effectStack], every Set membership is listed in the reverse index of
    the member, and no Set holds an effect twice. *)
Theorem exec_keeps_wf (n : nat) (p : Prog) (s : State) :
  wf s →
  (∀ s', final (exec n p s) = Some s' → wf s')
  ∧ (∀ s', final (turn n p s) = Some s' → wf s').
Proof.
  intros Hwf. pose proof (good_exec n p s Hwf) as Hp. split.
  - intros s' Hfin. destruct (exec n p s) as [v s1|err s1|]; [| |done];
      inversion Hfin; subst; apply Hp.
  - intros s' Hfin. unfold turn in Hfin.
    destruct (exec n p s) as [v s1|err s1|]; [| |done];
      destruct Hp as [Hwf1 _]; by eapply wf_drain.
Qed.

Lemma exec_keeps_wf_witness :
  wf (init Branch.objects)
  ∧ ∃ s', final (exec 10 Branch.switch_branch (init Branch.objects)) = Some s' ∧ wf s'.
Proof.
  split; [apply wf_init|].
  eexists. split; [vm_compute; reflexivity|].
  apply (exec_keeps_wf 10 Branch.switch_branch (init Branch.objects) (wf_init _)).
  vm_compute. reflexivity.
Defined.

(** X2.  A run of user code in which nothing is thrown (the runs with
    result [Ok]: user code has no [try]/[catch] here) leaves the effect
    stack and the active effect as it found them, however deeply the
    effects it ran were nested.  An exception, caught or not, leaves the
    effect that threw on the stack, which is X3. *)
Theorem exec_restores_active (n : nat) (p : Prog) (s s' : State) (v : Val) :
  wf s → exec n p s = Ok v s' →
  effectStack s' = effectStack s ∧ activeEffect s' = activeEffect s.
Proof.
  intros Hwf Hex. pose proof (good_exec n p s Hwf) as Hp. rewrite Hex in Hp.
  destruct Hp as [Hwf' Hst]. split; [done|].
  destruct Hwf as (-> & _), Hwf' as (-> & _). by rewrite Hst.
Qed.

Lemma exec_restores_active_witness :
  wf (init Arr.objects)
  ∧ ∃ s', final (exec 6 Arr.push_in_effect (init Arr.objects)) = Some s'
          ∧ effectStack s' = [] ∧ activeEffect s' = None.
Proof.
  split; [apply wf_init|].
  destruct (exec 6 Arr.push_in_effect (init Arr.objects)) as [v s'|err s'|] eqn:Hex;
    [|by vm_compute in Hex..].
  exists s'. split; [done|].
  apply (exec_restores_active 6 Arr.push_in_effect (init Arr.objects) s' v (wf_init _) Hex).
Defined.

(** X3.  An effect whose run throws is never popped: it stays on the
    effect stack, above what was there, and the active effect after the
    throw is the innermost effect that was running. *)
Theorem effectFn_throw_stays_active
    (n : nat) (e : EffId) (r : EffectRec) (s s' : State) (err : Err) :
  wf s → effects s !! e = Some r →
  effectFn (exec n) e s = Thrown err s' →
  effectStack s ++ [e] `prefix_of` effectStack s'
  ∧ is_Some (activeEffect s') ∧ activeEffect s' = last (effectStack s').
Proof.
  intros Hwf Hr Hex. unfold effectFn in Hex. rewrite Hr in Hex.
  unfold bind at 1 2 3, modify in Hex.
  set (s3 := log (ERun e) (set_active (Some e) (effectStack (cleanup e s) ++ [e]) (cleanup e s)))
    in Hex.
  assert (effectStack s3 = effectStack s ++ [e]) as Hst3.
  { change (effectStack s3) with (effectStack (cleanup e s) ++ [e]).
    by destruct (cleanup_rest e s) as (_ & _ & _ & ->). }
  assert (wf s3) as Hwf3.
  { change (wf (set_active (Some e) (effectStack (cleanup e s) ++ [e]) (cleanup e s))).
    apply wf_push; [by apply wf_cleanup|].
    rewrite (cleanup_effects _ _ _ Hr), lookup_insert_eq. by eexists. }
  unfold bind in Hex. pose proof (good_exec n (e_fn r) s3 Hwf3) as Hp.
  destruct (exec n (e_fn r) s3) as [v s4|err4 s4|]; [done| |done].
  inversion Hex; subst. destruct Hp as [Hwf4 Hpre]. rewrite Hst3 in Hpre.
  split_and!; [done| |apply Hwf4].
  destruct Hwf4 as (-> & _). destruct Hpre as [l ->].
  rewrite <- app_assoc. cbn [app]. destruct l as [|x l] using rev_ind.
  - rewrite last_snoc. by eexists.
  - rewrite app_comm_cons, app_assoc, last_snoc. by eexists.
Qed.

Lemma effectFn_throw_stays_active_witness :
  let s := set_next_id 1 (set_effects {[ 0 := mkEffect (PThrow VNull) true None [] ]} (init ∅)) in
  wf s
  ∧ ∃ err s', effectFn (exec 1) 0 s = Thrown err s'
              ∧ [0] `prefix_of` effectStack s' ∧ is_Some (activeEffect s').
Proof.
  cbn zeta.
  assert (wf (set_next_id 1
                (set_effects {[ 0 := mkEffect (PThrow VNull) true None [] ]} (init ∅)))) as Hwf
    by apply (wf_new_effect (PThrow VNull) true None (init ∅) (wf_init ∅)).
  split; [exact Hwf|].
  destruct (effectFn (exec 1) 0
              (set_next_id 1
                 (set_effects {[ 0 := mkEffect (PThrow VNull) true None [] ]} (init ∅))))
    as [v s'|err s'|] eqn:Hex; [by vm_compute in Hex | | by vm_compute in Hex].
  exists err, s'. split; [done|].
  destruct (effectFn_throw_stays_active 1 0 (mkEffect (PThrow VNull) true None []) _ _ _
              Hwf eq_refl Hex) as (H1 & H2 & _).
  split; [exact H1 | exact H2].
Defined.

(** ** What trigger selects and runs *)

(** X4.  The effects [trigger] runs for a key are the subscribers of the
    key, together with the subscribers of the iteration key when the
    mutation adds or deletes a key, each of them once (the subscribers of
    the key first). *)
Theorem trigger_selection (s : State) (t : Loc) (k : Key) (type : MutKind) :
  let L := effectsToRun (default ∅ (bucket s !! t)) k type in
  NoDup L
  ∧ (∀ x, x ∈ L ↔ x ∈ deps_of s t k ∨ (type ≠ SET ∧ x ∈ deps_of s t ITERATE_KEY))
  ∧ (∀ x, x ∈ deps_of s t k → NoDup (deps_of s t k) →
          ∃ i, deps_of s t k !! i = Some x ∧ L !! i = Some x).
Proof.
  cbn zeta. split_and!.
  - apply NoDup_effectsToRun.
  - intros x. apply elem_of_effectsToRun.
  - intros x Hx Hnd.
    assert (∀ l dst, NoDup (dst ++ l) → add_all l dst = dst ++ l) as Hadd.
    { induction l as [|a l IH]; intros dst Hdl; [by rewrite app_nil_r|].
      unfold add_all. cbn [foldl]. fold (add_all l (set_add a dst)).
      unfold set_add. rewrite bool_decide_false.
      - rewrite IH; rewrite <- app_assoc; done.
      - apply NoDup_app in Hdl as (_ & Hdis & _). intros Ha.
        apply (Hdis a Ha), list_elem_of_here. }
    assert (default [] (default ∅ (bucket s !! t) !! k) = deps_of s t k) as Hd.
    { unfold deps_of, bdeps. destruct (bucket s !! t); simpl; [done|]. by rewrite lookup_empty. }
    apply list_elem_of_lookup in Hx as [i Hi]. exists i. split; [done|].
    unfold effectsToRun. rewrite Hd, (Hadd _ []) by done. cbn [app].
    case_bool_decide; [|done].
    revert Hi. generalize (deps_of s t k) as l. intros l Hi.
    assert (∀ src dst j y, dst !! j = Some y → add_all src dst !! j = Some y) as Hpre.
    { induction src as [|a src IH]; intros dst j y Hj; [done|].
      unfold add_all. cbn [foldl]. apply IH. unfold set_add.
      case_bool_decide; [done|]. by apply lookup_app_l_Some. }
    by apply Hpre.
Qed.

Lemma runs_of_once e L : NoDup L → e ∈ L → runs_of e (ERun <$> L) = 1.
Proof.
  unfold runs_of. induction L as [|a l IHl]; intros Hnd Hin; [by apply elem_of_nil in Hin|].
  apply NoDup_cons in Hnd as [Ha Hnd]. cbn [fmap list_fmap]. rewrite filter_cons.
  apply elem_of_cons in Hin as [->|Hin].
  - rewrite decide_True by done. cbn [length]. f_equal.
    apply length_zero_iff_nil, elem_of_nil_inv. intros ev Hev.
    apply list_elem_of_filter in Hev as [-> Hev].
    apply list_elem_of_fmap in Hev as (x & Hx & Hxin). inversion Hx; subst. done.
  - rewrite decide_False; [by apply IHl|].
    intros Heq. inversion Heq; subst. done.
Qed.

(** X5.  When the effects [trigger] selects only read and have no
    scheduler, [trigger] finishes (by returning, or by the ReferenceError
    of its last block) having run each of them exactly once, synchronously
    and in the order of the Set. *)
Theorem trigger_runs_each_reader_once (s : State) (t : Loc) (k : Key) (type : MutKind) :
  plain_readers (effectsToRun (default ∅ (bucket s !! t)) k type) s →
  ∃ n s',
    (∀ m, n ≤ m → final (trigger (exec m) t k type s) = Some s')
    ∧ trace s' = trace s ++ (ERun <$> effectsToRun (default ∅ (bucket s !! t)) k type)
    ∧ ∀ e, e ∈ deps_of s t k → runs_of e (skipn (length (trace s)) (trace s')) = 1.
Proof.
  intros Hpl. destruct (trigger_readers t k type s Hpl) as (n & s' & Hex & Htr).
  exists n, s'. split_and!; [done | done |].
  intros e He. rewrite Htr, drop_app_length.
  apply runs_of_once; [apply NoDup_effectsToRun|].
  apply elem_of_effectsToRun. by left.
Qed.

Lemma Branch_switched_readers L :
  (∀ e, e ∈ L → e = 0) → plain_readers L Branch.switched.
Proof.
  intros HL e He. rewrite (HL e He). exists Branch.record. split_and!; [done| |done].
  apply RO_get. intros v. cbn beta. destruct (truthy v); apply RO_get; intros w; apply RO_ret.
Qed.

Lemma trigger_runs_each_reader_once_witness :
  ∃ n s',
    (∀ m, n ≤ m → final (trigger (exec m) 0 "ok" SET Branch.switched) = Some s')
    ∧ trace s' = [ERun 0].
Proof.
  destruct (trigger_runs_each_reader_once Branch.switched 0 "ok" SET)
    as (n & s' & Hex & Htr & _).
  - apply Branch_switched_readers. intros e He. vm_compute in He.
    by apply list_elem_of_singleton in He.
  - exists n, s'. split; [exact Hex | exact Htr].
Defined.

(** ** Writes and deletes through the proxy *)

(** X6.  Writing to a key the value it already holds, NaN over NaN
    included, notifies nobody, whatever the target and whoever is
    subscribed. *)
Theorem same_value_write_is_silent (rec : Prog → M Val) (t : Loc) (k : Key) (s : State) :
  ∃ s', final (proxy_assign rec t k (obj_get (the_obj s t) k) s) = Some s'
        ∧ trace s' = trace s.
Proof. apply proxy_assign_same_value. Qed.



(** X8.  The [get] trap treats ["raw"] like any other key, so
    [receiver.raw] is the own property ["raw"] of the target: unless the
    target stores itself under that key, no write through the proxy ever
    reaches [trigger]. *)
Theorem write_without_raw_is_silent
    (rec : Prog → M Val) (t : Loc) (k : Key) (v : Val) (s : State) :
  k ≠ KStr "raw" → obj_get (the_obj s t) "raw" ≠ VObj t →
  ∃ s', final (proxy_assign rec t k v s) = Some s' ∧ trace s' = trace s.
Proof. apply proxy_assign_without_raw. Qed.

Lemma write_without_raw_is_silent_witness :
  ∃ s', final (proxy_assign (exec 1) 0 "ok" (VBool true) Branch.switched) = Some s'
        ∧ trace s' = trace Branch.switched.
Proof.
  apply (write_without_raw_is_silent (exec 1) 0 "ok" (VBool true) Branch.switched);
    [discriminate | vm_compute; discriminate].
Defined.

(** X9.  When the target does store itself under ["raw"], a write made
    outside every effect that changes the value of a key (an index, when
    the target is an array) re-runs exactly once every effect subscribed
    to the key and, when the mutation type is ADD, every effect subscribed
    to the iteration key, provided these effects only read; it runs
    nothing else. *)
Theorem write_with_raw_reruns_once
    (t : Loc) (k : Key) (v : Val) (s : State) (o : Obj) (type : MutKind) :
  heap s !! t = Some o → o_props o !! KStr "raw" = Some (VObj t) → k ≠ KStr "raw" →
  (o_array o = true → is_Some (index_of_key k)) →
  activeEffect s = None →
  mutation_type o k = inr type →
  (∀ err, Reflect_set o k v ≠ SetThrows err) →
  strict_neq (obj_get o k) v && (strict_eq (obj_get o k) (obj_get o k) || strict_eq v v) = true →
  plain_readers (effectsToRun (default ∅ (bucket s !! t)) k type) s →
  ∃ n s',
    (∀ m, n ≤ m → final (proxy_assign (exec m) t k v s) = Some s')
    ∧ trace s' = trace s ++ (ERun <$> effectsToRun (default ∅ (bucket s !! t)) k type)
    ∧ (∀ e, e ∈ deps_of s t k ∨ (type = ADD ∧ e ∈ deps_of s t ITERATE_KEY) →
            runs_of e (skipn (length (trace s)) (trace s')) = 1)
    ∧ (∀ e, e ∉ deps_of s t k → ¬ (type = ADD ∧ e ∈ deps_of s t ITERATE_KEY) →
            runs_of e (skipn (length (trace s)) (trace s')) = 0).
Proof.
  intros Ho Hraw Hk _ Ha Hty Hset Hneq Hpl.
  destruct (proxy_assign_with_raw t k v s o type Ho Hraw Hk Ha Hty Hset Hneq Hpl)
    as (n & s' & Hex & Htr & _).
  assert (type ≠ DELETE) as Hnd.
  { unfold mutation_type in Hty. intros ->.
    destruct (o_array o); [destruct k as [str|]; [destruct (Number_str str)|]|];
      repeat case_match; by simplify_eq. }
  exists n, s'. split_and!; [done | done | |].
  - intros e He. rewrite Htr, drop_app_length.
    apply runs_of_once; [apply NoDup_effectsToRun|].
    apply elem_of_effectsToRun. destruct He as [?|[-> ?]]; [by left | by right].
  - intros e He1 He2. rewrite Htr, drop_app_length. unfold runs_of.
    apply length_zero_iff_nil, elem_of_nil_inv. intros ev Hev.
    apply list_elem_of_filter in Hev as [-> Hev].
    apply list_elem_of_fmap in Hev as (x & Hx & Hxin). inversion Hx; subst x.
    apply elem_of_effectsToRun in Hxin as [?|[Hty' ?]]; [done|].
    apply He2. split; [|done]. by destruct type.
Qed.

(** [obj.raw = obj], effect 0 has read [data.k] and effect 1 has listed
    the keys of [data]: [data.z = 5] adds a key and re-runs effect 1, not
    effect 0. *)
Lemma write_with_raw_reruns_once_witness :
  ∃ n s',
    (∀ m, n ≤ m → final (proxy_assign (exec m) 0 "z" (VNum 5) Listed.subscribed) = Some s')
    ∧ trace s' = [ERun 1]
    ∧ runs_of 1 (skipn (length (trace Listed.subscribed)) (trace s')) = 1
    ∧ runs_of 0 (skipn (length (trace Listed.subscribed)) (trace s')) = 0.
Proof.
  destruct (write_with_raw_reruns_once 0 "z" (VNum 5) Listed.subscribed Known.self ADD)
    as (n & s' & Hex & Htr & Hone & Hzero).
  - reflexivity.
  - reflexivity.
  - discriminate.
  - discriminate.
  - reflexivity.
  - reflexivity.
  - intros err. vm_compute. discriminate.
  - reflexivity.
  - intros e He. vm_compute in He. apply list_elem_of_singleton in He as ->.
    exists Listed.lister_record. split_and!; [reflexivity | | reflexivity].
    apply RO_ownKeys. intros ks. apply RO_ret.
  - exists n, s'. split_and!; [exact Hex | exact Htr | |].
    + apply Hone. right. split; [done|]. vm_compute. apply list_elem_of_here.
    + apply Hzero.
      * apply (bool_decide_unpack _). vm_compute. exact I.
      * intros [_ H]. vm_compute in H. apply list_elem_of_singleton in H. discriminate H.
Defined.

(** X10.  [cleanup] takes the effect out of every Set listed in its
    reverse index and empties the index; it touches no other effect.  When
    the index lists every Set the effect is in, the effect is left in no
    Set at all. *)
Theorem cleanup_unsubscribes (e : EffId) (r : EffectRec) (s : State) :
  effects s !! e = Some r →
  (∀ x t k, x ∈ deps_of (cleanup e s) t k
            ↔ x ∈ deps_of s t k ∧ ¬ (x = e ∧ (t, k) ∈ e_deps r))
  ∧ e_deps <$> effects (cleanup e s) !! e = Some []
  ∧ (∀ x, x ≠ e → effects (cleanup e s) !! x = effects s !! x)
  ∧ (indexed e s → ∀ t k, e ∉ deps_of (cleanup e s) t k).
Proof.
  intros Hr. split_and!.
  - intros x t k. by apply cleanup_deps.
  - by rewrite (cleanup_effects _ _ _ Hr), lookup_insert_eq.
  - intros x Hx. by rewrite (cleanup_effects _ _ _ Hr), lookup_insert_ne.
  - intros Hidx t k Hin. apply (cleanup_deps _ _ _ _ _ _ Hr) in Hin as [Hin Hnot].
    destruct (Hidx t k Hin) as (r0 & Hr0 & Hd). rewrite Hr in Hr0.
    inversion Hr0; subst. tauto.
Qed.

Lemma cleanup_unsubscribes_witness :
  deps_of Branch.switched 0 "x" = [0]
  ∧ ∀ t k, 0 ∉ deps_of (cleanup 0 Branch.switched) t k.
Proof.
  split; [reflexivity|].
  apply (cleanup_unsubscribes 0 Branch.record Branch.switched eq_refl).
  exact C5_switched_indexed.
Defined.

Lemma set_heap_same s t o : heap s !! t = Some o → set_heap (<[t := o]> (heap s)) s = s.
Proof. intros Ho. destruct s. unfold set_heap. cbn in *. by rewrite insert_id. Qed.

(** X11.  Deleting through the proxy a key the target does not have
    succeeds, changes nothing and notifies nobody. *)
Theorem delete_missing_key_is_noop
    (rec : Prog → M Val) (t : Loc) (k : Key) (s : State) (o : Obj) :
  heap s !! t = Some o → o_props o !! k = None →
  ¬ (o_array o = true ∧ k = KStr "length") →
  proxy_deleteProperty rec t k s = Ok true s.
Proof.
  intros Ho Hk Hlen. unfold proxy_deleteProperty, the_obj, obj_at. rewrite Ho.
  cbn [default from_option id].
  assert (hasOwn o k = false) as Hown.
  { unfold hasOwn. apply bool_decide_false. rewrite Hk. by intros [? ?]. }
  unfold Reflect_deleteProperty. rewrite Hown. destruct (o_frozen o) eqn:Hfr.
  - by rewrite (set_heap_same _ _ _ Ho).
  - assert (o_array o && bool_decide (k = KStr "length") = false) as ->.
    { destruct (o_array o); [|done]. cbn. apply bool_decide_false. intros ->. by apply Hlen. }
    rewrite delete_id by done.
    assert (mkObj (o_array o) false (o_props o) = o) as -> by (destruct o; cbn in *; by subst).
    by rewrite (set_heap_same _ _ _ Ho).
Qed.

Lemma delete_missing_key_is_noop_witness :
  proxy_deleteProperty (exec 1) 0 "z" Branch.switched = Ok true Branch.switched.
Proof.
  apply (delete_missing_key_is_noop (exec 1) 0 "z" Branch.switched
           (plain [(KStr "ok", VBool false); (KStr "x", VNum 1); (KStr "y", VNum 2)]));
    [reflexivity | reflexivity | intros [? ?]; discriminate].
Defined.

(** X12.  Deleting a configurable key that an ordinary, unfrozen object
    has (any own key but the marker [_v_isRef], which [ref] and [toRef]
    define as not configurable) removes the key and re-runs, exactly once
    each, the effects subscribed to the key and those subscribed to the
    iteration key, provided these effects only read.  This trap, unlike
    [set], does not consult [receiver.raw]. *)
Theorem delete_reruns_readers
    (t : Loc) (k : Key) (v : Val) (s : State) (o : Obj) :
  heap s !! t = Some o → o_array o = false → o_frozen o = false →
  o_props o !! k = Some v → k ≠ ref_marker →
  plain_readers (effectsToRun (default ∅ (bucket s !! t)) k DELETE) s →
  ∃ n s',
    (∀ m, n ≤ m → proxy_deleteProperty (exec m) t k s = Ok true s')
    ∧ hasOwn (the_obj s' t) k = false
    ∧ trace s' = trace s ++ (ERun <$> effectsToRun (default ∅ (bucket s !! t)) k DELETE)
    ∧ ∀ e, e ∈ deps_of s t k ∨ e ∈ deps_of s t ITERATE_KEY →
           runs_of e (skipn (length (trace s)) (trace s')) = 1.
Proof.
  intros Ho Harr Hfr Hk _ Hpl.
  set (o1 := mkObj false false (delete k (o_props o))).
  set (s1 := set_heap (<[t := o1]> (heap s)) s).
  destruct (forEach_readers (effectsToRun (default ∅ (bucket s !! t)) k DELETE) s1)
    as (n & s' & Hex & Hrest & _ & Htr).
  { intros e He. by apply Hpl. }
  assert (heap s' = heap s1) as Hh by (by injection Hrest).
  exists n, s'. split_and!.
  - intros m Hm. unfold proxy_deleteProperty, the_obj, obj_at. rewrite Ho.
    cbn [default from_option id].
    assert (hasOwn o k = true) as ->.
    { unfold hasOwn. apply bool_decide_true. rewrite Hk. by eexists. }
    unfold Reflect_deleteProperty. rewrite Hfr, Harr. cbn [andb]. fold o1. fold s1.
    unfold bind, trigger. change (bucket s1) with (bucket s).
    destruct (bucket s !! t) as [dm|] eqn:Hb.
    + cbn [default from_option id] in Hex. unfold bind. rewrite (Hex m Hm).
      unfold the_obj, obj_at. rewrite Hh. cbn [heap s1 set_heap]. rewrite lookup_insert_eq.
      cbn. done.
    + unfold effectsToRun in Hex. cbn [default from_option id] in Hex.
      rewrite !lookup_empty in Hex. cbn in Hex. specialize (Hex m Hm).
      inversion Hex; subst. done.
  - unfold the_obj, obj_at. rewrite Hh. cbn [heap s1 set_heap]. rewrite lookup_insert_eq.
    cbn. unfold hasOwn. cbn. apply bool_decide_false. rewrite lookup_delete_eq. by intros [? ?].
  - done.
  - intros e He. change (trace s1) with (trace s) in Htr. rewrite Htr, drop_app_length.
    apply runs_of_once; [apply NoDup_effectsToRun|].
    apply elem_of_effectsToRun. destruct He; [by left | by right].
Qed.

(** Effect 0 has read [data.k] and effect 1 has listed the keys of
    [data]: [delete data.k] re-runs both, once each, in that order. *)
Lemma delete_reruns_readers_witness :
  ∃ n s',
    (∀ m, n ≤ m → proxy_deleteProperty (exec m) 0 "k" Listed.subscribed = Ok true s')
    ∧ hasOwn (the_obj s' 0) "k" = false
    ∧ trace s' = [ERun 0; ERun 1]
    ∧ runs_of 1 (skipn (length (trace Listed.subscribed)) (trace s')) = 1.
Proof.
  destruct (delete_reruns_readers 0 "k" (VNum 1) Listed.subscribed Known.self)
    as (n & s' & Hex & Hown & Htr & Hruns); [reflexivity.. | discriminate | |].
  - intros e He. vm_compute in He.
    apply elem_of_cons in He as [->|He]; [|apply list_elem_of_singleton in He as ->].
    + exists Known.record. split_and!; [reflexivity | | reflexivity].
      apply RO_get. intros w. apply RO_ret.
    + exists Listed.lister_record. split_and!; [reflexivity | | reflexivity].
      apply RO_ownKeys. intros ks. apply RO_ret.
  - exists n, s'. split_and!; [exact Hex | exact Hown | exact Htr |].
    apply Hruns. right. vm_compute. apply list_elem_of_here.
Defined.

(** ** Creating effects *)

Lemma wf_active_exists s e : wf s → activeEffect s = Some e → is_Some (effects s !! e).
Proof.
  intros (H1 & H2 & _) Ha. apply H2. rewrite H1 in Ha.
  destruct (effectStack s) as [|x l] using rev_ind; [done|].
  rewrite last_snoc in Ha. inversion Ha; subst. apply elem_of_app. right.
  apply list_elem_of_here.
Qed.

(** [effect(fn, {scheduler})] for a body that only reads. *)
Lemma effect_reader_run fn sch s :
  wf s → ReadOnly fn →
  ∃ n s',
    (∀ m, n ≤ m → effect (exec m) fn false sch s = Ok (next_id s) s')
    ∧ heap s' = heap s ∧ next_id s' = S (next_id s)
    ∧ trace s' = trace s ++ [ERun (next_id s)]
    ∧ effectStack s' = effectStack s ∧ activeEffect s' = activeEffect s
    ∧ (∀ t k, next_id s ∈ deps_of s' t k ↔ (t, k) ∈ reads (heap s) fn)
    ∧ (∀ x t k, x ≠ next_id s → x ∈ deps_of s' t k ↔ x ∈ deps_of s t k)
    ∧ (∀ x, x ≠ next_id s → effects s' !! x = effects s !! x).
Proof.
  intros Hwf Hro.
  set (e := next_id s).
  set (s1 := set_next_id (S e) (set_effects (<[e := mkEffect fn false sch []]> (effects s)) s)).
  destruct (effectFn_readonly s1 e (mkEffect fn false sch []))
    as (n & s' & Hex & Hrest & Htr & Hst & Hact & Heff & Hd).
  { apply lookup_insert_eq. }
  { done. }
  assert (∀ t k, e ∉ deps_of s t k) as Hfresh.
  { intros t k Hin. destruct Hwf as (_ & _ & H3 & H4 & _).
    destruct (H3 e t k Hin) as (r & Hr & _).
    assert (e < next_id s) by (apply H4; by exists r). unfold e in *. lia. }
  exists n, s'. split_and!.
  - intros m Hm. unfold effect. fold e. fold s1. unfold bind. by rewrite (Hex m Hm).
  - by injection Hrest.
  - by injection Hrest.
  - done.
  - done.
  - rewrite Hact. change (effectStack s1) with (effectStack s). symmetry. apply Hwf.
  - intros t k. rewrite Hd. change (deps_of s1 t k) with (deps_of s t k).
    split; [intros [[Hin _]|[_ ?]]; [by apply Hfresh in Hin | done] | by right].
  - intros x t k Hx. rewrite Hd. change (deps_of s1 t k) with (deps_of s t k).
    split; [intros [[? _]|[? _]]; done | intros ?; left; split; [done | by intros [? _]]].
  - intros x Hx. rewrite Heff. rewrite lookup_insert_ne by done.
    change (effects s1) with (<[e := mkEffect fn false sch []]> (effects s)).
    by rewrite lookup_insert_ne.
Qed.

(** X13.  [effect(fn, options)] returns a fresh handle.  With [lazy] it
    runs nothing and subscribes nothing, whatever [fn] is.  Without [lazy]
    a body that only reads is run once, at once, whatever the scheduler,
    and the new effect is subscribed to exactly the keys the body read; no
    other subscription changes and the active effect is the same as
    before. *)
Theorem effect_runs_once_unless_lazy (fn : Prog) (sch : option Sched) (s : State) :
  (∀ rec, ∃ s', effect rec fn true sch s = Ok (next_id s) s'
                ∧ trace s' = trace s ∧ bucket s' = bucket s)
  ∧ (wf s → ReadOnly fn →
     ∃ n s',
       (∀ m, n ≤ m → effect (exec m) fn false sch s = Ok (next_id s) s')
       ∧ trace s' = trace s ++ [ERun (next_id s)]
       ∧ activeEffect s' = activeEffect s
       ∧ (∀ t k, next_id s ∈ deps_of s' t k ↔ (t, k) ∈ reads (heap s) fn)
       ∧ (∀ x t k, x ≠ next_id s → x ∈ deps_of s' t k ↔ x ∈ deps_of s t k)).
Proof.
  split.
  - intros rec. eexists. by split_and!.
  - intros Hwf Hro. destruct (effect_reader_run fn sch s Hwf Hro)
      as (n & s' & Hex & _ & _ & Htr & _ & Hact & Hnew & Hold & _).
    exists n, s'. by split_and!.
Qed.

Lemma effect_runs_once_unless_lazy_witness :
  wf (init Branch.objects)
  ∧ ∃ n s',
      (∀ m, n ≤ m → effect (exec m) Branch.body false None (init Branch.objects) = Ok 0 s')
      ∧ trace s' = [ERun 0]
      ∧ (∀ t k, 0 ∈ deps_of s' t k ↔ (t, k) ∈ [(0, KStr "ok"); (0, KStr "x")]).
Proof.
  split; [apply wf_init|].
  destruct (effect_runs_once_unless_lazy Branch.body None (init Branch.objects)) as [_ H].
  destruct (H (wf_init _)) as (n & s' & Hex & Htr & _ & Hnew & _).
  - apply RO_get. intros v. cbn beta. destruct (truthy v); apply RO_get; intros w; apply RO_ret.
  - exists n, s'. split_and!; [exact Hex | exact Htr | exact Hnew].
Defined.

(** X14.  Nesting.  While effect [eo] is active its body creates an
    inner effect and then goes on reading: the reads of the inner body are
    recorded for the new inner effect, the reads made after [effect]
    returned are recorded for [eo] again. *)
Theorem nested_effect_attribution
    (s : State) (eo : EffId) (inner : Prog) (cont : EffId → Prog) :
  wf s → activeEffect s = Some eo →
  ReadOnly inner → (∀ e, ReadOnly (cont e)) →
  ∃ n v s',
    (∀ m, n ≤ m → exec m (PEffect inner false None cont) s = Ok v s')
    ∧ activeEffect s' = Some eo
    ∧ (∀ t k, next_id s ∈ deps_of s' t k ↔ (t, k) ∈ reads (heap s) inner)
    ∧ (∀ t k, eo ∈ deps_of s' t k
              ↔ eo ∈ deps_of s t k ∨ (t, k) ∈ reads (heap s) (cont (next_id s))).
Proof.
  intros Hwf Ha Hin Hcont.
  destruct (effect_reader_run inner None s Hwf Hin)
    as (n1 & s1 & Hex1 & Hh1 & _ & _ & _ & Ha1 & Hnew & Hold & _).
  rewrite Ha in Ha1.
  destruct (exec_readonly _ (Hcont (next_id s)) s1 eo Ha1)
    as (n2 & v & s2 & Hex2 & _ & _ & Ha2 & _ & _ & Hd2).
  assert (eo ≠ next_id s) as Hne.
  { destruct (wf_active_exists s eo Hwf Ha) as [r Hr].
    destruct Hwf as (_ & _ & _ & H4 & _).
    assert (eo < next_id s) by (apply H4; by exists r). lia. }
  exists (S (n1 `max` n2)), v, s2. split_and!.
  - intros [|m] Hm; [lia|]. cbn [exec step]. unfold bind.
    rewrite (Hex1 m) by lia. apply Hex2. lia.
  - done.
  - intros t k. rewrite Hd2, Hnew, Hh1.
    split; [intros [?|[? _]]; [done | by subst] | by left].
  - intros t k. rewrite Hd2, (Hold eo t k Hne), Hh1. tauto.
Qed.

Lemma nested_effect_attribution_witness :
  let s := set_active (Some 0) [0]
             (set_next_id 1 (set_effects {[ 0 := mkEffect nothing false None [] ]}
                               (init Branch.objects))) in
  wf s
  ∧ ∃ n v s',
      (∀ m, n ≤ m →
            exec m (PEffect (PGet 0 "x" (λ _, nothing)) false None
                      (λ _, PGet 0 "y" (λ _, nothing))) s = Ok v s')
      ∧ (∀ t k, 1 ∈ deps_of s' t k ↔ (t, k) ∈ [(0, KStr "x")])
      ∧ (∀ t k, 0 ∈ deps_of s' t k ↔ 0 ∈ deps_of s t k ∨ (t, k) ∈ [(0, KStr "y")]).
Proof.
  cbn zeta.
  assert (wf (set_active (Some 0) [0]
                (set_next_id 1 (set_effects {[ 0 := mkEffect nothing false None [] ]}
                                  (init Branch.objects))))) as Hwf.
  { apply (wf_push 0 (set_next_id 1 (set_effects {[ 0 := mkEffect nothing false None [] ]}
                                       (init Branch.objects)))).
    - apply (wf_new_effect nothing false None (init Branch.objects) (wf_init _)).
    - by eexists. }
  split; [exact Hwf|].
  destruct (nested_effect_attribution _ 0 (PGet 0 "x" (λ _, nothing))
              (λ _, PGet 0 "y" (λ _, nothing)) Hwf eq_refl)
    as (n & v & s' & Hex & _ & Hin & Hout).
  - apply RO_get. intros w. apply RO_ret.
  - intros e. apply RO_get. intros w. apply RO_ret.
  - exists n, v, s'. split_and!; [exact Hex | exact Hin | exact Hout].
Defined.

(** ** The read traps *)

(** X15.  The three read traps subscribe the active effect and leave
    the raw objects alone: [get] and [has] subscribe it to the key asked
    for, whether or not the target has it; [ownKeys] subscribes it to the
    iteration key, so that afterwards [trigger] selects it for the addition
    or deletion of any key of the target, and for a plain SET only if it
    was subscribed to that key already. *)
Theorem read_traps_subscribe (s : State) (e : EffId) (t : Loc) (k : Key) :
  activeEffect s = Some e →
  (∃ s', proxy_get t k s = Ok (get_result (heap s) t k) s'
         ∧ heap s' = heap s ∧ e ∈ deps_of s' t k)
  ∧ (∃ b s', proxy_has t k s = Ok b s'
             ∧ heap s' = heap s ∧ e ∈ deps_of s' t k)
  ∧ (∃ s', proxy_ownKeys t s = Ok (dom (o_props (the_obj s t))) s'
           ∧ heap s' = heap s
           ∧ ∀ k', e ∈ effectsToRun (default ∅ (bucket s' !! t)) k' ADD
                   ∧ e ∈ effectsToRun (default ∅ (bucket s' !! t)) k' DELETE
                   ∧ (k' ≠ ITERATE_KEY →
                      e ∈ effectsToRun (default ∅ (bucket s' !! t)) k' SET
                      ↔ e ∈ deps_of s t k')).
Proof.
  intros Ha. split_and!.
  - exists (track t k s). rewrite proxy_get_eq. split_and!; [done | apply track_heap|].
    apply (track_deps _ _ _ e); [done | tauto].
  - eexists _, (track t k s). unfold proxy_has.
    split_and!; [done | apply track_heap |].
    apply (track_deps _ _ _ e); [done | tauto].
  - exists (track t ITERATE_KEY s). unfold proxy_ownKeys, the_obj. rewrite track_heap.
    split_and!; [done | done |].
    intros k'. rewrite !elem_of_effectsToRun, !(track_deps _ _ _ e) by done.
    split_and!; [right; split; [done|]; tauto | right; split; [done|]; tauto |].
    intros Hk'. split; [intros [[?|(_ & _ & ?)]|[? _]]; done | intros ?; left; by left].
Qed.

Lemma read_traps_subscribe_witness :
  let s := set_active (Some 0) [0] Branch.switched in
  ∃ s', proxy_ownKeys 0 s = Ok {[ KStr "ok"; KStr "x"; KStr "y" ]} s'
        ∧ 0 ∈ effectsToRun (default ∅ (bucket s' !! 0)) "z" ADD.
Proof.
  cbn zeta.
  destruct (read_traps_subscribe (set_active (Some 0) [0] Branch.switched) 0 0 "z" eq_refl)
    as (_ & _ & (s' & Hex & _ & Hsel)).
  exists s'. split; [|apply Hsel].
  rewrite Hex. by f_equal.
Defined.

(** ** computed *)

Lemma computed_read_dirty (s : State) (c : CompId) (rc : CompRec) (re : EffectRec) :
  comps s !! c = Some rc → c_dirty rc = true →
  effects s !! c_effect rc = Some re → ReadOnly (e_fn re) →
  ∃ n v s1,
    (∀ m, n ≤ m → computed_value (exec m) c s = Ok v s1)
    ∧ trace s1 = trace s ++ [ERun (c_effect rc)]
    ∧ (∀ rec, computed_value rec c s1 = Ok v s1).
Proof.
  intros Hc Hdirty He Hro.
  destruct (effectFn_readonly s (c_effect rc) re He Hro)
    as (n & s0 & Hex & Hrest & Htr & _).
  assert (comps s0 = comps s) as Hcomps by (by injection Hrest).
  eexists n, VUndef, _. split_and!.
  - intros m Hm. unfold computed_value. rewrite Hc, Hdirty. unfold bind, modify, ret.
    rewrite (Hex m Hm). reflexivity.
  - done.
  - intros rec. unfold computed_value. cbn [comps set_comps].
    rewrite lookup_alter_eq, Hcomps, Hc. done.
Qed.

(** X16.  Memoization.  The first read of a dirty computed whose getter
    only reads runs the getter once and caches what the effect handle
    returned; reading again runs nothing, changes nothing and returns the
    cached value. *)
Theorem computed_memoizes (s : State) (c : CompId) (rc : CompRec) (re : EffectRec) :
  comps s !! c = Some rc → c_dirty rc = true →
  effects s !! c_effect rc = Some re → ReadOnly (e_fn re) →
  ∃ n v s1,
    (∀ m, n ≤ m → computed_value (exec m) c s = Ok v s1)
    ∧ trace s1 = trace s ++ [ERun (c_effect rc)]
    ∧ (∀ rec, computed_value rec c s1 = Ok v s1).
Proof. apply computed_read_dirty. Qed.

Lemma computed_memoizes_witness :
  ∃ n v s1,
    (∀ m, n ≤ m → computed_value (exec m) 0 Derived.reading = Ok v s1)
    ∧ trace s1 = [ERun 1]
    ∧ (∀ rec, computed_value rec 0 s1 = Ok v s1).
Proof.
  destruct (computed_memoizes Derived.reading 0 (mkComp VUndef true 1)
              (mkEffect Derived.getter true (Some (SComputed 0)) []))
    as (n & v & s1 & Hex & Htr & Hagain); [reflexivity.. | |].
  - apply RO_get. intros w. apply RO_ret.
  - exists n, v, s1. split_and!; [exact Hex | exact Htr | exact Hagain].
Defined.

(** X17.  Laziness.  When [trigger] selects only the internal effect of
    a clean computed, the computed becomes dirty and nothing is run,
    whatever the getter is: a getter that only reads runs again, once, at
    the next read. *)
Theorem computed_invalidation_is_lazy
    (rec : Prog → M Val) (s : State) (c : CompId) (rc : CompRec) (re : EffectRec)
    (t : Loc) (k : Key) (type : MutKind) :
  comps s !! c = Some rc → c_dirty rc = false →
  effects s !! c_effect rc = Some re → e_sched re = Some (SComputed c) →
  effectsToRun (default ∅ (bucket s !! t)) k type = [c_effect rc] →
  ∃ s1,
    final (trigger rec t k type s) = Some s1
    ∧ trace s1 = trace s ++ [ESched (c_effect rc)]
    ∧ c_dirty <$> comps s1 !! c = Some true
    ∧ (ReadOnly (e_fn re) →
       ∃ n v s2,
         (∀ m, n ≤ m → computed_value (exec m) c s1 = Ok v s2)
         ∧ trace s2 = trace s1 ++ [ERun (c_effect rc)]).
Proof.
  intros Hc Hclean He Hsch Hsel.
  set (s1 := set_comps (alter (λ r, mkComp (c_value r) true (c_effect r)) c (comps s))
               (log (ESched (c_effect rc)) s)).
  assert (comps s1 !! c = Some (mkComp (c_value rc) true (c_effect rc))) as Hc1.
  { unfold s1. cbn [comps set_comps log]. by rewrite lookup_alter_eq, Hc. }
  exists s1. split_and!.
  - unfold trigger. destruct (bucket s !! t) as [dm|] eqn:Hb.
    + cbn [default from_option id] in Hsel. rewrite Hsel. cbn [forEach].
      unfold bind at 1 2. unfold run_triggered. rewrite He, Hsch.
      cbn [call_scheduler]. unfold modify, ret. fold s1.
      destruct (_ && _); [|done]. by case_bool_decide.
    + exfalso. unfold effectsToRun in Hsel. cbn [default from_option id] in Hsel.
      rewrite !lookup_empty in Hsel. by destruct (bool_decide _).
  - done.
  - by rewrite Hc1.
  - intros Hro.
    destruct (computed_read_dirty s1 c (mkComp (c_value rc) true (c_effect rc)) re)
      as (n & v & s2 & Hex & Htr & _); [done | done | done | done |].
    exists n, v, s2. by split.
Qed.

Lemma computed_invalidation_is_lazy_witness :
  ∃ s1,
    final (trigger (exec 1) 0 "value" SET Cached.clean) = Some s1
    ∧ trace s1 = [ESched 1]
    ∧ c_dirty <$> comps s1 !! 0 = Some true
    ∧ ∃ n v s2,
        (∀ m, n ≤ m → computed_value (exec m) 0 s1 = Ok v s2)
        ∧ trace s2 = [ESched 1; ERun 1].
Proof.
  destruct (computed_invalidation_is_lazy (exec 1) Cached.clean 0 (mkComp VUndef false 1)
              Cached.internal 0 "value" SET)
    as (s1 & Hfin & Htr & Hdirty & Hnext); [reflexivity..|].
  destruct Hnext as (n & v & s2 & Hex & Htr2).
  - apply RO_get. intros w. apply RO_ret.
  - exists s1. split_and!; [exact Hfin | exact Htr | exact Hdirty |].
    exists n, v, s2. split; [exact Hex|]. by rewrite Htr2, Htr.
Defined.

(** ** The job queue *)

(** X18.  Batching.  Queueing any number of jobs, with repeats, keeps
    one entry per distinct job in the order of first insertion, and
    registers one flush for the whole batch, none when a flush is already
    pending.  No job is run by [queueJob] itself. *)
Theorem queueJob_batches (js : list EffId) (s : State) :
  ∃ s',
    forEach queueJob js s = Ok () s'
    ∧ queue s' = add_all js (queue s)
    ∧ microtasks s'
      = (if isFlushing s then microtasks s
         else match js with [] => microtasks s | _ => S (microtasks s) end)
    ∧ isFlushing s' = (isFlushing s || match js with [] => false | _ => true end)
    ∧ trace s' = trace s.
Proof.
  revert s. induction js as [|j js IH]; intros s.
  - exists s. split_and!; try done; by destruct (isFlushing s).
  - cbn [forEach]. unfold bind at 1. unfold queueJob at 1, modify.
    match goal with |- context [forEach queueJob js ?s0] => destruct (IH s0) as (s' & Hex & Hq & Hm & Hf & Htr) end.
    exists s'. rewrite Hex. split_and!; [done | | | |].
    + rewrite Hq. by destruct (isFlushing s).
    + rewrite Hm. destruct (isFlushing s); cbn; [done|]. by destruct js.
    + rewrite Hf. by destruct (isFlushing s).
    + rewrite Htr. by destruct (isFlushing s).
Qed.

Lemma flush_loop_readers k :
  ∀ i s,
    length (queue s) = i + k →
    (∀ j, j ∈ queue s → ∃ r, effects s !! j = Some r ∧ ReadOnly (e_fn r)) →
    ∃ n s',
      (∀ m1 m2, n ≤ m1 → n ≤ m2 → flush_loop (exec m1) m2 i s = Ok () s')
      ∧ rest s' = rest s
      ∧ trace s' = trace s ++ (ERun <$> drop i (queue s)).
Proof.
  induction k as [|k IH]; intros i s Hlen Hjobs.
  - exists 1, s. split_and!; [|done|].
    + intros m1 [|m2] _ Hm2; [lia|]. cbn [flush_loop].
      rewrite lookup_ge_None_2 by lia. done.
    + rewrite drop_ge by lia. by rewrite app_nil_r.
  - destruct (lookup_lt_is_Some_2 (queue s) i) as [j Hj]; [lia|].
    destruct (Hjobs j) as (r & Hr & Hro); [by eapply list_elem_of_lookup_2|].
    destruct (effectFn_readonly s j r Hr Hro)
      as (n1 & s1 & Hex1 & Hrest1 & Htr1 & _ & _ & Heff1 & _).
    assert (queue s1 = queue s) as Hq1 by (by injection Hrest1).
    destruct (IH (S i) s1) as (n2 & s2 & Hex2 & Hrest2 & Htr2).
    { rewrite Hq1. lia. }
    { intros j' Hj'. rewrite Hq1 in Hj'. destruct (decide (j' = j)) as [->|Hne].
      - rewrite Heff1, lookup_insert_eq. by eexists.
      - rewrite Heff1, lookup_insert_ne by done. by apply Hjobs. }
    exists (S (n1 `max` n2)), s2. split_and!.
    + intros m1 [|m2] Hm1 Hm2; [lia|]. cbn [flush_loop]. rewrite Hj.
      unfold bind. rewrite (Hex1 m1) by lia. apply Hex2; lia.
    + by rewrite Hrest2.
    + rewrite Htr2, Htr1, Hq1, <- app_assoc. cbn [app].
      by rewrite (drop_S _ _ _ Hj).
Qed.

(** X19.  A flush whose queued jobs only read runs every one of them
    once, in the order of insertion, and ends with [isFlushing] reset;
    the entries of [queue] are the same after the flush as before. *)
Theorem flush_runs_each_job_once (s : State) :
  (∀ j, j ∈ queue s → ∃ r, effects s !! j = Some r ∧ ReadOnly (e_fn r)) →
  ∃ n s',
    (∀ m1 m2, n ≤ m1 → n ≤ m2 → flush (exec m1) m2 s = Ok () s')
    ∧ trace s' = trace s ++ (ERun <$> queue s)
    ∧ isFlushing s' = false
    ∧ queue s' = queue s.
Proof.
  intros Hjobs.
  destruct (flush_loop_readers (length (queue s)) 0 s eq_refl Hjobs)
    as (n & s1 & Hex & Hrest & Htr).
  exists n, (flush_finally s1). split_and!.
  - intros m1 m2 Hm1 Hm2. unfold flush. by rewrite (Hex m1 m2 Hm1 Hm2).
  - done.
  - done.
  - cbn [queue flush_finally set_jobs]. by injection Hrest.
Qed.

Lemma flush_runs_each_job_once_witness :
  let s := set_jobs [0] None true 0 Branch.switched in
  ∃ n s',
    (∀ m1 m2, n ≤ m1 → n ≤ m2 → flush (exec m1) m2 s = Ok () s')
    ∧ trace s' = [ERun 0] ∧ isFlushing s' = false.
Proof.
  cbn zeta.
  destruct (flush_runs_each_job_once (set_jobs [0] None true 0 Branch.switched))
    as (n & s' & Hex & Htr & Hfl & _).
  - intros j Hj. apply list_elem_of_singleton in Hj as ->.
    exists Branch.record. split; [reflexivity|].
    apply RO_get. intros v. cbn beta. destruct (truthy v); apply RO_get; intros w; apply RO_ret.
  - exists n, s'. split_and!; [exact Hex | exact Htr | exact Hfl].
Defined.

(** ** proxyRefs *)

(** X20.  Reading through [proxyRefs(target)] a key whose value is
    neither [null] nor [undefined] returns the [value] of that value when
    it carries a truthy [_v_isRef], and the value itself otherwise; the raw
    objects are not changed. *)
Theorem proxyRefs_get_unwraps (s : State) (target : Val) (k : Key) :
  is_object target = true →
  current_value s target k ≠ VUndef → current_value s target k ≠ VNull →
  ∃ s',
    proxyRefs_get target k s
    = Ok (if is_ref s (current_value s target k)
          then current_value s (current_value s target k) "value"
          else current_value s target k) s'
    ∧ heap s' = heap s.
Proof.
  intros Hobj Hu Hn. unfold is_ref.
  assert (∀ v s0, heap s0 = heap s → v ≠ VUndef → v ≠ VNull →
            ∃ s', (let! isRef := js_get v "_v_isRef" in
                   if truthy isRef then js_get v "value" else ret v) s0
                  = Ok (if truthy (current_value s v "_v_isRef")
                        then current_value s v "value" else v) s'
                  ∧ heap s' = heap s) as Hgo.
  { intros v s0 Hh Hvu Hvn. unfold bind.
    destruct v as [| |b|z| |str|l|l|m]; try done; cbn [js_get current_value];
      try (by exists s0).
    - unfold the_obj. rewrite Hh. destruct (truthy _); exists s0; cbn beta;
        unfold ret; rewrite ?Hh; done.
    - rewrite proxy_get_eq, Hh. destruct (truthy _).
      + rewrite proxy_get_eq, track_heap, Hh. eexists. split; [done|].
        by rewrite !track_heap.
      + eexists. split; [done|]. by rewrite track_heap. }
  destruct target as [| | | | | |l|l|]; try discriminate Hobj;
    unfold proxyRefs_get; cbn [is_object js_get current_value] in *; unfold bind at 1.
  - apply Hgo; done.
  - rewrite proxy_get_eq. apply Hgo; [apply track_heap | done | done].
Qed.

Lemma proxyRefs_get_unwraps_witness :
  (∃ s', proxyRefs_get (VObj 0) "count" (init (Setup.objects (VObj 1))) = Ok (VNum 1) s')
  ∧ (∃ s', proxyRefs_get (VObj 0) "label" (init (Setup.objects (VObj 1))) = Ok (VStr "a") s').
Proof.
  split.
  - destruct (proxyRefs_get_unwraps (init (Setup.objects (VObj 1))) (VObj 0) "count")
      as (s' & Hex & _); [reflexivity | vm_compute; discriminate | vm_compute; discriminate |].
    exists s'. exact Hex.
  - destruct (proxyRefs_get_unwraps (init (Setup.objects (VObj 1))) (VObj 0) "label")
      as (s' & Hex & _); [reflexivity | vm_compute; discriminate | vm_compute; discriminate |].
    exists s'. exact Hex.
Defined.





(** ** Searching a reactive array *)

Lemma pretty_N_char_digit x : is_Some (digit_of (pretty_N_char x)).
Proof. unfold pretty_N_char. repeat case_match; by eexists. Qed.

Lemma pretty_N_go_head x :
  ∀ s, (0 < x)%N → ∃ d r, is_Some (digit_of d) ∧ pretty_N_go x s = String d r.
Proof.
  induction (N.lt_wf_0 x) as [x _ IH]; intros s Hx.
  rewrite pretty_N_go_step by done.
  destruct (decide (x `div` 10 = 0)%N) as [->|Hne].
  - rewrite pretty_N_go_0. eauto using pretty_N_char_digit.
  - apply IH; [apply N.div_lt; lia | by apply N.neq_0_lt_0].
Qed.

Lemma pretty_nat_head (j : nat) : ∃ d r, is_Some (digit_of d) ∧ pretty j = String d r.
Proof.
  unfold pretty, pretty_nat, pretty, pretty_N. case_decide.
  - exists (Ascii.Ascii false false false false true true false false), EmptyString.
    split; [by eexists | done].
  - apply pretty_N_go_head. lia.
Qed.

(** No array index is a key of [arrayInstrumentations]. *)
Lemma index_not_instrumented (j : nat) : is_instrumented (KStr (pretty j)) = None.
Proof.
  destruct (pretty_nat_head j) as (d & r & [n Hd] & ->).
  unfold is_instrumented. rewrite bool_decide_false; [done|].
  unfold arrayInstrumentations. intros Hin.
  repeat (apply elem_of_cons in Hin as [Heq|Hin];
          [inversion Heq; subst; by vm_compute in Hd|]).
  by apply elem_of_nil in Hin.
Qed.

Lemma track_all_rest t keys : ∀ s,
  heap (track_all t keys s) = heap s ∧ trace (track_all t keys s) = trace s
  ∧ activeEffect (track_all t keys s) = activeEffect s.
Proof.
  induction keys as [|k keys IH]; intros s; [done|].
  unfold track_all. cbn [foldl]. fold (track_all t keys (track t k s)).
  destruct (IH (track t k s)) as (-> & -> & ->).
  destruct (track_rest t k s) as (_ & -> & -> & _). by rewrite track_heap.
Qed.

Lemma track_all_app t ks1 ks2 s :
  track_all t (ks1 ++ ks2) s = track_all t ks2 (track_all t ks1 s).
Proof. unfold track_all. by rewrite foldl_app. Qed.

Lemma track_all_deps t keys e : ∀ s,
  activeEffect s = Some e →
  ∀ x t' k', x ∈ deps_of (track_all t keys s) t' k'
             ↔ x ∈ deps_of s t' k' ∨ (x = e ∧ t' = t ∧ k' ∈ keys).
Proof.
  induction keys as [|k keys IH]; intros s Ha x t' k'.
  - cbn. rewrite elem_of_nil. tauto.
  - unfold track_all. cbn [foldl]. fold (track_all t keys (track t k s)).
    rewrite IH by (by destruct (track_rest t k s) as (_ & _ & -> & _)).
    rewrite (track_deps _ _ _ e) by done. rewrite elem_of_cons.
    split; [intros [[?|(-> & -> & ->)]|(-> & -> & ?)] | intros [?|(-> & -> & [->|?])]];
      tauto.
Qed.

Section Search.
Variables (t : Loc) (o : Obj) (search : Val).
Hypothesis Harr : o_array o = true.

Lemma array_get_index s (j : nat) :
  heap s !! t = Some o → get_result (heap s) t (KStr (pretty j)) = obj_get o (KStr (pretty j)).
Proof.
  intros Ho. unfold get_result, obj_at. rewrite Ho. cbn [default from_option id].
  by rewrite Harr, index_not_instrumented.
Qed.

Lemma index_keys_S k n : index_keys k (S n) = KStr (pretty k) :: index_keys (S k) n.
Proof. done. Qed.

Lemma includes_loop_miss n : ∀ k s,
  heap s !! t = Some o →
  (∀ j, k ≤ j < k + n → SameValueZero search (obj_get o (KStr (pretty j))) = false) →
  includes_loop t search k n s = Ok (VBool false) (track_all t (index_keys k n) s).
Proof.
  induction n as [|n IH]; intros k s Ho Hmiss; [done|].
  cbn [includes_loop]. unfold bind. rewrite proxy_get_eq, (array_get_index _ _ Ho).
  rewrite Hmiss by lia. rewrite IH.
  - by rewrite index_keys_S.
  - by rewrite track_heap.
  - intros j Hj. apply Hmiss. lia.
Qed.

Lemma includes_loop_hit i : ∀ n k s,
  heap s !! t = Some o → i < n →
  (∀ j, k ≤ j < k + i → SameValueZero search (obj_get o (KStr (pretty j))) = false) →
  SameValueZero search (obj_get o (KStr (pretty (k + i)))) = true →
  includes_loop t search k n s = Ok (VBool true) (track_all t (index_keys k (S i)) s).
Proof.
  induction i as [|i IH]; intros n k s Ho Hin Hmiss Hhit;
    (destruct n as [|n]; [lia|]); cbn [includes_loop]; unfold bind;
    rewrite proxy_get_eq, (array_get_index _ _ Ho).
  - rewrite Nat.add_0_r in Hhit. by rewrite Hhit.
  - rewrite Hmiss by lia. rewrite (IH n (S k)).
    + by rewrite (index_keys_S k (S i)).
    + by rewrite track_heap.
    + lia.
    + intros j Hj. apply Hmiss. lia.
    + by replace (S k + i) with (k + S i) by lia.
Qed.

Lemma call_includes_start s (Ho : heap s !! t = Some o) :
  call_includes t search s
  = instrumented_search (native_includes search) t (track t "includes" s).
Proof.
  unfold call_includes, bind. rewrite proxy_get_eq.
  unfold get_result, obj_at. rewrite Ho. cbn [default from_option id]. by rewrite Harr.
Qed.

Lemma native_includes_proxy s (Ho : heap s !! t = Some o) :
  native_includes search (VProxy t) s
  = includes_loop t search 0 (ToLength (obj_get o "length")) (track t "length" s).
Proof.
  cbn [native_includes]. unfold bind. rewrite proxy_get_eq.
  unfold get_result, obj_at. rewrite Ho. cbn [default from_option id]. by rewrite Harr.
Qed.

End Search.

(** X23.  [arr.includes(x)] on a reactive array that holds [x] (up to
    SameValueZero, so NaN is found) returns [true]; the active effect
    becomes subscribed to ["includes"], ["length"] and the indices up to
    the first occurrence, and to nothing else. *)
Theorem includes_finds_first_occurrence
    (s : State) (t : Loc) (o : Obj) (search : Val) (i : nat) (e : EffId) :
  heap s !! t = Some o → o_array o = true → activeEffect s = Some e →
  i < ToLength (obj_get o "length") →
  (∀ j, j < i → SameValueZero search (obj_get o (KStr (pretty j))) = false) →
  SameValueZero search (obj_get o (KStr (pretty i))) = true →
  ∃ s',
    call_includes t search s = Ok (VBool true) s'
    ∧ heap s' = heap s
    ∧ ∀ k, e ∈ deps_of s' t k
           ↔ e ∈ deps_of s t k ∨ k = KStr "includes" ∨ k = KStr "length"
             ∨ ∃ j, j ≤ i ∧ k = KStr (pretty j).
Proof.
  intros Ho Harr Ha Hlen Hmiss Hhit.
  set (keys := KStr "includes" :: KStr "length" :: index_keys 0 (S i)).
  exists (track_all t keys s).
  destruct (track_all_rest t keys s) as (Hh & _ & _). split_and!; [|done|].
  - rewrite (call_includes_start t o search Harr s Ho). unfold instrumented_search, bind.
    rewrite (native_includes_proxy t o search Harr) by (by rewrite track_heap).
    rewrite (includes_loop_hit t o search Harr i); [done | by rewrite !track_heap | done | |done].
    intros j Hj. apply Hmiss. lia.
  - intros k. rewrite (track_all_deps t keys e s Ha). unfold keys.
    rewrite !elem_of_cons. unfold index_keys. rewrite list_elem_of_fmap.
    setoid_rewrite elem_of_seq.
    split; [intros [?|(_ & _ & [->|[->|(j & -> & Hj)]])] | intros [?|[->|[->|(j & Hj & ->)]]]];
      try tauto.
    + right. right. right. exists j. split; [lia | done].
    + right. split_and!; [done..|]. right. right. exists j. split; [done | lia].
Qed.

Lemma includes_finds_first_occurrence_witness :
  ∃ s', call_includes 0 VNaN (Inventory.running Inventory.items) = Ok (VBool true) s'
        ∧ (0 ∈ deps_of s' 0 "1") ∧ (0 ∉ deps_of s' 0 "2").
Proof.
  destruct (includes_finds_first_occurrence (Inventory.running Inventory.items) 0
              Inventory.items VNaN 1 0) as (s' & Hex & _ & Hd); [reflexivity.. | | | |].
  - vm_compute. lia.
  - intros j Hj. assert (j = 0) as -> by lia. reflexivity.
  - reflexivity.
  - exists s'. split_and!; [exact Hex | |].
    + apply Hd. right. right. right. exists 1. split; [lia | reflexivity].
    + intros H. apply Hd in H as [H|[H|[H|(j & Hj & H)]]]; try discriminate H.
      * vm_compute in H. by apply elem_of_nil in H.
      * assert (j = 0 ∨ j = 1) as [-> | ->] by lia; vm_compute in H; discriminate H.
Defined.

Lemma includes_loop_returns t search n : ∀ k s,
  ∃ b s', includes_loop t search k n s = Ok (VBool b) s'.
Proof.
  induction n as [|n IH]; intros k s; [by eexists _, _|].
  cbn [includes_loop]. unfold bind. rewrite proxy_get_eq.
  destruct (SameValueZero _ _); [by eexists _, _ | apply IH].
Qed.

Lemma native_includes_returns search raw s :
  nullish raw = false → ∃ b s', native_includes search raw s = Ok (VBool b) s'.
Proof.
  intros Hn. destruct raw; try discriminate Hn; cbn [native_includes];
    try (by eexists _, _).
  unfold bind. rewrite proxy_get_eq. apply includes_loop_returns.
Qed.

(** X24.  [arr.includes(x)] on a reactive array that does not hold [x]
    returns what the native [includes] gives when it is applied a second
    time, to [this.raw], which the [get] trap reads as the own property
    ["raw"] of the target.  When that is [undefined] or [null], as for
    every array without a key ["raw"], the call throws a TypeError instead
    of returning [false], and for every other value of ["raw"] it returns
    a boolean; when the array stores itself under ["raw"] that boolean is
    [false]. *)
Theorem includes_miss_throws (s : State) (t : Loc) (o : Obj) (search : Val) :
  heap s !! t = Some o → o_array o = true →
  (∀ j, j < ToLength (obj_get o "length") →
        SameValueZero search (obj_get o (KStr (pretty j))) = false) →
  ∃ s',
    heap s' = heap s
    ∧ call_includes t search s = native_includes search (obj_get o "raw") s'
    ∧ (nullish (obj_get o "raw") = true → call_includes t search s = Thrown TypeError s')
    ∧ (nullish (obj_get o "raw") = false →
       ∃ b s2, call_includes t search s = Ok (VBool b) s2)
    ∧ (obj_get o "raw" = VObj t → call_includes t search s = Ok (VBool false) s').
Proof.
  intros Ho Harr Hmiss.
  set (keys := KStr "includes" :: KStr "length"
                 :: index_keys 0 (ToLength (obj_get o "length")) ++ [KStr "raw"]).
  assert (call_includes t search s
          = native_includes search (obj_get o "raw") (track_all t keys s)) as Hgo.
  { rewrite (call_includes_start t o search Harr s Ho). unfold instrumented_search, bind.
    rewrite (native_includes_proxy t o search Harr) by (by rewrite track_heap).
    rewrite (includes_loop_miss t o search Harr); [|by rewrite !track_heap|].
    2:{ intros j Hj. apply Hmiss. lia. }
    cbn [strict_eq orb]. rewrite bool_decide_true by done. cbn [orb].
    rewrite proxy_get_eq. unfold get_result, obj_at.
    rewrite (proj1 (track_all_rest _ _ _)), !track_heap, Ho. cbn [default from_option id].
    rewrite Harr. change (is_instrumented "raw") with (@None string).
    unfold keys. change (?a :: ?b :: ?l ++ [?c]) with ([a; b] ++ (l ++ [c])).
    rewrite !track_all_app. done. }
  destruct (track_all_rest t keys s) as (Hh & _ & _).
  exists (track_all t keys s). split_and!; [done | done | | |].
  - intros Hnull. rewrite Hgo. by destruct (obj_get o "raw").
  - intros Hnull. rewrite Hgo. by apply native_includes_returns.
  - intros Hraw. rewrite Hgo, Hraw.
    cbn [native_includes]. do 2 f_equal. apply not_true_is_false. intros Hex.
    apply existsb_exists in Hex as (el & Hin & Hel).
    apply list_elem_of_In in Hin. unfold raw_elements in Hin.
    apply list_elem_of_fmap in Hin as (j & -> & Hj). apply elem_of_seq in Hj.
    unfold the_obj, obj_at in *. rewrite Hh, Ho in *. cbn [default from_option id] in *.
    fold (obj_get o (KStr (pretty j))) in Hel. rewrite Hmiss in Hel by lia. done.
Qed.

(** [[10, NaN, 12].includes(99)] through the proxy throws; with
    [arr.raw = arr] it returns [false]. *)
Lemma includes_miss_throws_witness :
  (∃ s', call_includes 0 (VNum 99) (Inventory.running Inventory.items) = Thrown TypeError s')
  ∧ (∃ s', call_includes 0 (VNum 99) (Inventory.running Inventory.known) = Ok (VBool false) s').
Proof.
  split.
  - destruct (includes_miss_throws (Inventory.running Inventory.items) 0 Inventory.items
                (VNum 99)) as (s' & _ & _ & H & _ & _); [reflexivity | reflexivity | |].
    + intros j Hj. change (ToLength _) with 3 in Hj.
      assert (j = 0 ∨ j = 1 ∨ j = 2) as [->|[->| ->]] by lia; reflexivity.
    + exists s'. by apply H.
  - destruct (includes_miss_throws (Inventory.running Inventory.known) 0 Inventory.known
                (VNum 99)) as (s' & _ & _ & _ & _ & H); [reflexivity | reflexivity | |].
    + intros j Hj. change (ToLength _) with 3 in Hj.
      assert (j = 0 ∨ j = 1 ∨ j = 2) as [->|[->| ->]] by lia; reflexivity.
    + exists s'. by apply H.
Defined.

Lemma indexOf_loop_miss (t : Loc) (o : Obj) (search : Val) n : ∀ k s,
  heap s !! t = Some o →
  (∀ j, k ≤ j < k + n → strict_eq search (get_result (heap s) t (KStr (pretty j))) = false) →
  ∃ s', indexOf_loop t search k n s = Ok (VNum (-1)) s' ∧ heap s' = heap s.
Proof.
  induction n as [|n IH]; intros k s Ho Hmiss; [by exists s|].
  cbn [indexOf_loop]. unfold bind, proxy_has. cbn beta zeta.
  destruct (hasOwn _ _).
  - rewrite proxy_get_eq, !track_heap, Hmiss by lia.
    destruct (IH (S k) (track t (KStr (pretty k)) (track t (KStr (pretty k)) s)))
      as (s' & -> & Hh).
    + by rewrite !track_heap.
    + intros j Hj. rewrite !track_heap. apply Hmiss. lia.
    + exists s'. by rewrite Hh, !track_heap.
  - destruct (IH (S k) (track t (KStr (pretty k)) s)) as (s' & -> & Hh).
    + by rewrite !track_heap.
    + intros j Hj. rewrite !track_heap. apply Hmiss. lia.
    + exists s'. by rewrite Hh, !track_heap.
Qed.

(** X25.  [arr.indexOf(x)] on a reactive array none of whose elements is
    [=== x] does not return [-1] but throws a TypeError, unless the array
    has a property ["raw"]; [indexOf] compares with [===], so this is the
    outcome of every search for NaN. *)
Theorem indexOf_miss_throws (s : State) (t : Loc) (o : Obj) (search : Val) :
  heap s !! t = Some o → o_array o = true → o_props o !! KStr "raw" = None →
  (search = VNaN
   ∨ ∀ j, j < ToLength (obj_get o "length") →
          strict_eq search (obj_get o (KStr (pretty j))) = false) →
  ∃ s', call_indexOf t search s = Thrown TypeError s' ∧ heap s' = heap s.
Proof.
  intros Ho Harr Hraw Hmiss.
  assert (∀ v, strict_eq search v = false
               ∨ ∀ j, j < ToLength (obj_get o "length") →
                      strict_eq search (obj_get o (KStr (pretty j))) = false) as Hm.
  { intros v. destruct Hmiss as [-> | H]; [by left | by right]. }
  assert (get_result (heap s) t "indexOf" = VInstr "indexOf") as Hf.
  { unfold get_result, obj_at. rewrite Ho. cbn [default from_option id]. by rewrite Harr. }
  assert (get_result (heap s) t "length" = obj_get o "length") as Hl.
  { unfold get_result, obj_at. rewrite Ho. cbn [default from_option id]. by rewrite Harr. }
  assert (get_result (heap s) t "raw" = VUndef) as Hr.
  { unfold get_result, obj_at. rewrite Ho. cbn [default from_option id]. rewrite Harr.
    change (is_instrumented "raw") with (@None string). unfold obj_get. by rewrite Hraw. }
  unfold call_indexOf, bind. rewrite proxy_get_eq, Hf.
  rewrite bool_decide_true by done.
  unfold instrumented_search, bind. cbn [native_indexOf]. unfold bind.
  rewrite proxy_get_eq, track_heap, Hl.
  edestruct (indexOf_loop_miss t o search) as (s1 & -> & Hh1).
  - by rewrite !track_heap.
  - intros j Hj. rewrite !track_heap, (array_get_index t o Harr _ _ Ho).
    destruct (Hm (obj_get o (KStr (pretty j)))) as [H|H]; [done | apply H; lia].
  - cbn [strict_eq orb]. rewrite bool_decide_false by done.
    rewrite bool_decide_true by done. cbn [orb].
    rewrite proxy_get_eq, Hh1, !track_heap, Hr. cbn [native_indexOf throw].
    eexists. split; [done|]. by rewrite track_heap, Hh1, !track_heap.
Qed.

Lemma indexOf_miss_throws_witness :
  ∃ s', call_indexOf 0 VNaN (Inventory.running Inventory.items) = Thrown TypeError s'.
Proof.
  destruct (indexOf_miss_throws (Inventory.running Inventory.items) 0 Inventory.items VNaN)
    as (s' & Hex & _); [reflexivity | reflexivity | reflexivity | by left |].
  exists s'. exact Hex.
Defined.

(** ** myInstanceof *)

Lemma existsb_seq_S (f : nat → bool) n : ∀ a,
  existsb f (seq (S a) n) = existsb (λ i, f (S i)) (seq a n).
Proof. induction n as [|n IH]; intros a; [done|]. cbn. by rewrite IH. Qed.

Lemma existsb_pointwise {A} (f g : A → bool) l :
  (∀ x, f x = g x) → existsb f l = existsb g l.
Proof. intros H. induction l as [|x l IH]; [done|]. cbn. by rewrite H, IH. Qed.

Section Walk.
Variables proto_of prototype_of : Val → Val.

Lemma chain_S target i : chain proto_of target (S i) = chain proto_of (proto_of target) i.
Proof. unfold chain. by rewrite Nat.iter_succ_r. Qed.

Lemma myInstanceof_walk origin n : ∀ target fuel,
  nullish origin = false →
  (∀ j, j < n → truthy (chain proto_of target j) = true) →
  truthy (chain proto_of target n) = false →
  n < fuel →
  myInstanceof proto_of prototype_of fuel target origin
  = Some (inr (existsb (λ i, strict_eq (chain proto_of target i) (prototype_of origin))
                 (seq 1 n))).
Proof.
  intros target fuel Ho. revert target fuel.
  induction n as [|n IH]; intros target fuel Hlive Hend Hfuel;
    (destruct fuel as [|fuel]; [lia|]); cbn [myInstanceof].
  - cbn in Hend. by rewrite Hend.
  - pose proof (Hlive 0 ltac:(lia)) as H0. cbn in H0. rewrite H0, Ho. cbn [seq existsb].
    change (chain proto_of target 1) with (proto_of target).
    destruct (strict_eq (proto_of target) (prototype_of origin)); [done|].
    rewrite (IH (proto_of target) fuel).
    + cbn [orb]. rewrite (existsb_seq_S _ n 1). do 2 f_equal.
      apply existsb_pointwise. intros i. by rewrite chain_S.
    + intros j Hj. rewrite <- chain_S. apply Hlive. lia.
    + by rewrite <- chain_S.
    + lia.
Qed.
End Walk.

(** X26.  [myInstanceof(target, origin)] walks the [__proto__] chain of
    [target] until it meets a falsy value: it returns [true] exactly when
    one of the values on the chain after [target] itself is
    [=== origin.prototype].  A falsy [target] gives [false] whatever
    [origin] is; any other [target] with an [origin] that is [undefined]
    or [null] throws a TypeError. *)
Theorem myInstanceof_walks_chain
    (proto_of prototype_of : Val → Val) (target origin : Val) (n fuel : nat) :
  (∀ j, j < n → truthy (chain proto_of target j) = true) →
  truthy (chain proto_of target n) = false →
  n < fuel →
  myInstanceof proto_of prototype_of fuel target origin
  = Some (match n with
          | O => inr false
          | S _ =>
              if nullish origin then inl TypeError
              else inr (existsb (λ i, strict_eq (chain proto_of target i)
                                        (prototype_of origin)) (seq 1 n))
          end).
Proof.
  intros Hlive Hend Hfuel. destruct n as [|n].
  - destruct fuel as [|fuel]; [lia|]. cbn in Hend. cbn [myInstanceof]. by rewrite Hend.
  - destruct (nullish origin) eqn:Ho.
    + destruct fuel as [|fuel]; [lia|]. cbn [myInstanceof].
      pose proof (Hlive 0 ltac:(lia)) as H0. cbn in H0. by rewrite H0, Ho.
    + by apply myInstanceof_walk.
Qed.

Lemma myInstanceof_walks_chain_witness :
  myInstanceof Lineage.proto_of Lineage.prototype_of 5 (VObj 0) (VObj 12) = Some (inr true)
  ∧ myInstanceof Lineage.proto_of Lineage.prototype_of 5 (VObj 0) VUndef
    = Some (inl TypeError).
Proof.
  split.
  - rewrite (myInstanceof_walks_chain Lineage.proto_of Lineage.prototype_of
               (VObj 0) (VObj 12) 4 5); [reflexivity | | reflexivity | lia].
    intros j Hj. assert (j = 0 ∨ j = 1 ∨ j = 2 ∨ j = 3) as [->|[->|[->| ->]]] by lia;
      reflexivity.
  - rewrite (myInstanceof_walks_chain Lineage.proto_of Lineage.prototype_of
               (VObj 0) VUndef 4 5); [reflexivity | | reflexivity | lia].
    intros j Hj. assert (j = 0 ∨ j = 1 ∨ j = 2 ∨ j = 3) as [->|[->|[->| ->]]] by lia;
      reflexivity.
Defined.

(** ** dispatch and broadcast *)

Lemma dispatch_loop_find componentName : ∀ above parent,
  dispatch_loop componentName parent above (vm_name parent)
  = List.find (named componentName) (parent :: above).
Proof.
  induction above as [|p above IH]; intros parent; cbn [dispatch_loop List.find];
    unfold named at 1, strict_neq;
    destruct (truthy (vm_name parent)), (strict_eq (vm_name parent) componentName);
    cbn [negb orb andb]; try done; apply IH.
Qed.

Lemma strict_eq_eq a b : strict_eq a b = true → a = b.
Proof.
  unfold strict_eq. intros H.
  destruct a, b; try discriminate H; by apply bool_decide_eq_true in H.
Qed.

Lemma find_named_falsy componentName chain :
  truthy componentName = false → List.find (named componentName) chain = None.
Proof.
  intros Hf. induction chain as [|p chain IH]; [done|]. cbn [List.find].
  unfold named at 1. destruct (truthy (vm_name p)) eqn:Ht; [|done].
  destruct (strict_eq (vm_name p) componentName) eqn:He; [|done].
  apply strict_eq_eq in He. congruence.
Qed.

(** X27.  [dispatch] calls [$emit] on at most one instance: the nearest
    one on the [$parent] chain of [this] whose [componentName] is truthy
    and [=== componentName], with the arguments
    [[eventName].concat(params)].  When [this] has no [$parent] the chain
    searched is [this] alone, so that a root instance can deliver the
    event to itself. *)
Theorem dispatch_reaches_nearest_named
    (this : Vm) (ancestors : list Vm) (componentName eventName : Val) (params : Params) :
  dispatch this ancestors componentName eventName params
  = match List.find (named componentName)
            (match ancestors with [] => [this] | _ => ancestors end) with
    | Some p => [(vm_id p, emit_args eventName params)]
    | None => []
    end.
Proof.
  unfold dispatch. destruct ancestors as [|p above]; by rewrite dispatch_loop_find.
Qed.

(** X28.  [dispatch] with a falsy [componentName] (undefined, the
    empty string, ...) never calls [$emit], also when instances on the
    chain have that very [componentName]. *)
Theorem dispatch_falsy_name_is_silent
    (this : Vm) (ancestors : list Vm) (componentName eventName : Val) (params : Params) :
  truthy componentName = false →
  dispatch this ancestors componentName eventName params = [].
Proof.
  intros Hf. unfold dispatch.
  destruct ancestors as [|p above]; by rewrite dispatch_loop_find, find_named_falsy.
Qed.

Lemma dispatch_falsy_name_is_silent_witness :
  truthy VUndef = false
  ∧ dispatch (mkVm 4 (VStr "Input")) Form.above_input VUndef (VStr "change") (PValue (VNum 1))
    = [].
Proof.
  split; [reflexivity|]. by apply dispatch_falsy_name_is_silent.
Defined.

Lemma Tree_nested_ind (P : Tree → Prop) :
  (∀ vm cs, Forall P cs → P (Node vm cs)) → ∀ t, P t.
Proof.
  intros H. fix IH 1. intros [vm cs]. apply H.
  induction cs as [|c cs IHcs]; constructor; [apply IH | exact IHcs].
Qed.

(** X29.  [broadcast] calls [$emit], with the arguments
    [[eventName].concat(params)], on exactly the descendants of [this]
    whose [componentName] is [=== componentName] and that have no
    instance of that name between [this] and themselves: it does not
    descend below a match. *)
Theorem broadcast_reaches_topmost
    (this : Tree) (componentName eventName : Val) (params : Params) (e : Emit) :
  e ∈ broadcast this componentName eventName params
  ↔ ∃ d, topmost componentName this d
         ∧ e = (vm_id (root_vm d), emit_args eventName params).
Proof.
  revert e. induction this as [vm cs IH] using Tree_nested_ind. intros e.
  cbn [broadcast]. rewrite list_elem_of_In, in_flat_map. rewrite Forall_forall in IH.
  split.
  - intros (c & Hc & He). apply list_elem_of_In in Hc.
    destruct (strict_eq (vm_name (root_vm c)) componentName) eqn:Hn.
    + apply list_elem_of_In, list_elem_of_singleton in He.
      exists c. split; [by apply topmost_child | done].
    + apply list_elem_of_In, (IH c Hc) in He as (d & Hd & ->).
      exists d. split; [by eapply topmost_below | done].
  - intros (d & Hd & ->). inversion Hd as [? ? Hin Hn | ? c ? Hin Hn Hbelow]; subst.
    + exists d. split; [by apply list_elem_of_In|].
      rewrite Hn. apply list_elem_of_In, list_elem_of_singleton. done.
    + exists c. split; [by apply list_elem_of_In|].
      rewrite Hn. apply list_elem_of_In, IH; [done|]. by exists d.
Qed.
